(** * Live voice-session orchestration of hello.ai

    A shallow embedding of the Gemini voice service (both copies found in the
    repository), of the retrieval endpoint [GET /api/gemini-audio/[meetingId]]
    and of the client-side [GeminiAudioPlayer] polling loop, followed by the
    properties stated about them.

    Conventions.
    - A JavaScript object that is shared and mutated in place (a session held
      in the [sessions] map and, at the same time, by a suspended
      [processTranscription] call) is an index into a list of objects; the map
      holds the index.
    - An [async] function runs synchronously up to its first [await]; what is
      left of it is a [Task], resumed when the awaited promise settles.  The
      results of the collaborators (generative model, text-to-speech client,
      file system, clock) are inputs of the model.
    - [console.log] and [console.error] have no effect on the state and are
      left out. *)

From Stdlib Require Import ZArith.
From stdpp Require Import gmap strings list fin_maps pretty.

Open Scope Z_scope.

(** The line feed of the template literals. *)
Definition LF : string := String (Ascii.ascii_of_N 10) EmptyString.

(** JavaScript truthiness of a string: the empty string is falsy. *)
Definition truthy (s : string) : bool := negb (String.eqb s "").

(** Truthiness of a value that may be [undefined] or [null]. *)
Definition truthy_opt (o : option string) : bool :=
  match o with
  | Some s => truthy s
  | None => false
  end.

(** ** The voice service (src/lib/gemini-voice, two copies) *)

Module GeminiVoice.

(** The two copies differ only in step 5 of [processTranscription]. *)
Inductive Variant :=
| Ephemeral   (* the copy that never touches the disk *)
| Durable.    (* the copy that writes the audio under public/audio-responses *)

(** The part of [process.env] the service reads. *)
Record ProcessEnv := {
  GOOGLE_CLOUD_KEYFILE : option string;
  GOOGLE_CLOUD_PROJECT_ID : option string;
  GEMINI_API_KEY : option string;
  GOOGLE_GENAI_API_KEY : option string;
}.

(** [getTTSClient()]: [false] stands for [null], [true] for a client. *)
Definition getTTSClient (env : ProcessEnv) : bool :=
  if negb (truthy_opt (GOOGLE_CLOUD_KEYFILE env))
     && negb (truthy_opt (GOOGLE_CLOUD_PROJECT_ID env))
  then false
  else true.

(** [getGeminiClient()]: [false] when it throws for want of an API key. *)
Definition getGeminiClient (env : ProcessEnv) : bool :=
  truthy_opt (GEMINI_API_KEY env) || truthy_opt (GOOGLE_GENAI_API_KEY env).

Record Message := {
  role : string;
  content : string;
}.

Record AudioResponse := {
  text : string;
  audioUrl : string;
  timestamp : Z;          (* a Date, as milliseconds since the epoch *)
}.

(** [interface GeminiVoiceSession]; [call] is kept as its [id]. *)
Record GeminiVoiceSession := {
  call : string;
  agentUserId : string;
  instructions : string;
  conversationHistory : list Message;
  isProcessing : bool;
  audioResponses : list AudioResponse;
}.

(** The field updates the code performs on a session object. *)
Definition set_isProcessing (b : bool) (s : GeminiVoiceSession)
  : GeminiVoiceSession :=
  {| call := call s; agentUserId := agentUserId s;
     instructions := instructions s;
     conversationHistory := conversationHistory s;
     isProcessing := b;
     audioResponses := audioResponses s |}.

Definition push_history (m : Message) (s : GeminiVoiceSession)
  : GeminiVoiceSession :=
  {| call := call s; agentUserId := agentUserId s;
     instructions := instructions s;
     conversationHistory := conversationHistory s ++ [m];
     isProcessing := isProcessing s;
     audioResponses := audioResponses s |}.

Definition push_response (r : AudioResponse) (s : GeminiVoiceSession)
  : GeminiVoiceSession :=
  {| call := call s; agentUserId := agentUserId s;
     instructions := instructions s;
     conversationHistory := conversationHistory s;
     isProcessing := isProcessing s;
     audioResponses := audioResponses s ++ [r] |}.

(** The server process: the [sessions] map of the singleton service, the
    session objects it points to, the files under [AUDIO_STORAGE_DIR]
    (by file name) and [process.env]. *)
Record State := {
  sessions : gmap string nat;
  objects : list GeminiVoiceSession;
  disk : gmap string (list Byte.byte);
  env : ProcessEnv;
}.

Definition initial (e : ProcessEnv) : State :=
  {| sessions := ∅; objects := []; disk := ∅; env := e |}.

Definition with_objects (os : list GeminiVoiceSession) (st : State) : State :=
  {| sessions := sessions st; objects := os; disk := disk st; env := env st |}.

Definition with_file (name : string) (bytes : list Byte.byte) (st : State)
  : State :=
  {| sessions := sessions st; objects := objects st;
     disk := <[name := bytes]> (disk st); env := env st |}.

(** In-place update of the session object [l]. *)
Definition mutate (l : nat) (f : GeminiVoiceSession → GeminiVoiceSession)
    (st : State) : State :=
  with_objects (alter f l (objects st)) st.

(** [this.sessions.get(callId)]: the object and its identity. *)
Definition get (st : State) (callId : string)
  : option (nat * GeminiVoiceSession) :=
  match sessions st !! callId with
  | Some l =>
      match objects st !! l with
      | Some s => Some (l, s)
      | None => None
      end
  | None => None
  end.

(** [startSession(call, agentUserId, instructions)]: a new object replaces
    whatever the map held for [call.id]. *)
Definition startSession (st : State) (call_id agent instr : string) : State :=
  {| sessions := <[call_id := length (objects st)]> (sessions st);
     objects := objects st ++
       [ {| call := call_id; agentUserId := agent; instructions := instr;
            conversationHistory := []; isProcessing := false;
            audioResponses := [] |} ];
     disk := disk st;
     env := env st |}.

Definition endSession (st : State) (callId : string) : State :=
  {| sessions := delete callId (sessions st);
     objects := objects st; disk := disk st; env := env st |}.

Definition hasSession (st : State) (callId : string) : bool :=
  bool_decide (is_Some (sessions st !! callId)).

(** [session?.audioResponses || []] *)
Definition getAudioResponses (st : State) (callId : string)
  : list AudioResponse :=
  match get st callId with
  | Some (_, s) => audioResponses s
  | None => []
  end.

Definition getLatestAudioResponse (st : State) (callId : string)
  : option string :=
  match get st callId with
  | Some (_, s) => audioUrl <$> last (audioResponses s)
  | None => None
  end.

(** *** generateGeminiResponse *)

Definition fallback_text : string :=
  "I apologize, but I could not generate a response.".

Definition conversationPart (msg : Message) : string :=
  (if String.eqb (role msg) "user" then "User" else "Assistant")
    +:+ ": " +:+ content msg.

(** The prompt handed to [model.generateContent]. *)
Definition build_prompt (instr : string) (history : list Message) : string :=
  let systemPrompt :=
    instr +:+ LF +:+ LF +:+
    "You are having a conversation. Respond naturally and concisely." in
  systemPrompt +:+ LF +:+ LF +:+ "Conversation:" +:+ LF +:+
  String.concat (LF +:+ LF) (conversationPart <$> history) +:+
  LF +:+ LF +:+ "Assistant:".

(** [text || 'I apologize, ...'] *)
Definition text_or_fallback (t : string) : string :=
  if truthy t then t else fallback_text.

(** *** Suspended calls of processTranscription *)

(** Where a call is suspended, with the locals it still needs. *)
Inductive Stage :=
| AwaitGenerate (prompt : option string)
    (* in generateGeminiResponse; [None]: getGeminiClient threw, the
       promise is already rejected *)
| AwaitSpeech (geminiResponse : string) (client : bool)
    (* in textToSpeech; [client = false]: it returned null *)
| AwaitEnsureDir (geminiResponse : string) (audioBuffer : list Byte.byte)
    (* Durable only: await ensureAudioDir() *)
| AwaitWriteFile (geminiResponse : string) (audioBuffer : list Byte.byte)
    (audioFileName : string).
    (* Durable only: await writeFile(audioPath, audioBuffer) *)

Record Task := {
  session : nat;               (* the object bound to [session] *)
  callId : string;
  transcriptionText : string;
  stage : Stage;
}.

Definition at_stage (t : Task) (g : Stage) : Task :=
  {| session := session t; callId := callId t;
     transcriptionText := transcriptionText t; stage := g |}.

(** What an awaited promise delivers. *)
Inductive Settled :=
| Rejected                                   (* the awaited call raised *)
| Done                                       (* resolved, nothing or null *)
| GeneratedText (response_text : string)     (* response.text() *)
| SynthesizedSpeech (audioContent : option (list Byte.byte)).

(** The two clock reads of a turn. *)
Record Clock := {
  Date_now : Z;     (* Date.now(), for the file name *)
  new_Date : Z;     (* new Date(), for the timestamp *)
}.

(** The [finally] block. *)
Definition release (l : nat) (st : State) : State :=
  mutate l (set_isProcessing false) st.

Definition audio_file_name (callId : string) (clk : Clock) : string :=
  callId +:+ "-" +:+ pretty (Date_now clk) +:+ ".wav".

Definition audio_url (audioFileName : string) : string :=
  "/audio-responses/" +:+ audioFileName.

(** The synchronous prefix of [processTranscription]: up to the first
    [await].  [None]: the call returned at one of the two guards. *)
Definition processTranscription_begin (st : State)
    (callId transcriptionText speakerId : string) : State * option Task :=
  match get st callId with
  | None => (st, None)
  | Some (l, s) =>
      if isProcessing s then (st, None)
      else if String.eqb speakerId (agentUserId s) then (st, None)
      else
        let user := {| role := "user"; content := transcriptionText |} in
        let st1 := mutate l (set_isProcessing true) st in
        let st2 := mutate l (push_history user) st1 in
        let prompt :=
          if getGeminiClient (env st)
          then Some (build_prompt (instructions s)
                       (conversationHistory s ++ [user]))
          else None in
        (st2, Some {| session := l; callId := callId;
                      transcriptionText := transcriptionText;
                      stage := AwaitGenerate prompt |})
  end.

(** Step 5, reached with the value of [audioBuffer]. *)
Definition store_response (v : Variant) (st : State) (t : Task)
    (geminiResponse : string) (audioBuffer : option (list Byte.byte))
    (clk : Clock) : State * option Task :=
  let l := session t in
  match v with
  | Ephemeral =>
      let r := {| text := geminiResponse;
                  audioUrl := audio_url (audio_file_name (callId t) clk);
                  timestamp := new_Date clk |} in
      (release l (mutate l (push_response r) st), None)
  | Durable =>
      match audioBuffer with
      | Some buf => (st, Some (at_stage t (AwaitEnsureDir geminiResponse buf)))
      | None =>
          let r := {| text := geminiResponse; audioUrl := "";
                      timestamp := new_Date clk |} in
          (release l (mutate l (push_response r) st), None)
      end
  end.

(** The rest of [processTranscription] from one [await] to the next, or to
    its end ([None] task: the call has returned, [finally] has run).
    The result is [None] when the promise awaited at that stage cannot
    settle that way. *)
Definition resume (v : Variant) (st : State) (t : Task) (r : Settled)
    (clk : Clock) : option (State * option Task) :=
  let l := session t in
  match stage t, r with
  | AwaitGenerate _, Rejected =>
      Some (release l st, None)
  | AwaitGenerate (Some _), GeneratedText response_text =>
      let geminiResponse := text_or_fallback response_text in
      let st1 :=
        mutate l (push_history
                    {| role := "assistant"; content := geminiResponse |}) st in
      Some (st1, Some (at_stage t
                         (AwaitSpeech geminiResponse (getTTSClient (env st)))))
  | AwaitSpeech geminiResponse false, Done =>
      Some (store_response v st t geminiResponse None clk)
  | AwaitSpeech _ true, Rejected =>
      Some (release l st, None)
  | AwaitSpeech _ true, SynthesizedSpeech None =>
      (* throw new Error('Failed to generate audio from text') *)
      Some (release l st, None)
  | AwaitSpeech geminiResponse true, SynthesizedSpeech (Some audioContent) =>
      Some (store_response v st t geminiResponse (Some audioContent) clk)
  | AwaitEnsureDir _ _, Rejected =>
      Some (release l st, None)
  | AwaitEnsureDir geminiResponse audioBuffer, Done =>
      Some (st, Some (at_stage t
                        (AwaitWriteFile geminiResponse audioBuffer
                           (audio_file_name (callId t) clk))))
  | AwaitWriteFile _ _ _, Rejected =>
      Some (release l st, None)
  | AwaitWriteFile geminiResponse audioBuffer audioFileName, Done =>
      let r := {| text := geminiResponse;
                  audioUrl := audio_url audioFileName;
                  timestamp := new_Date clk |} in
      Some (release l
              (mutate l (push_response r)
                 (with_file audioFileName audioBuffer st)), None)
  | _, _ => None
  end.

(** *** One call run to its end *)

(** What the collaborators answer during one turn. *)
Record Collaborators := {
  generated : option string;
    (* response.text(); [None]: generateContent or response.text() raised *)
  synthesized : option (option (list Byte.byte));
    (* response.audioContent; [None]: synthesizeSpeech raised *)
  ensured : bool;          (* ensureAudioDir() succeeded *)
  written : bool;          (* writeFile() succeeded *)
  clock : Clock;
}.

(** How the promise awaited at a stage settles, given those answers. *)
Definition settle (b : Collaborators) (g : Stage) : Settled :=
  match g with
  | AwaitGenerate None => Rejected
  | AwaitGenerate (Some _) =>
      match generated b with
      | Some response_text => GeneratedText response_text
      | None => Rejected
      end
  | AwaitSpeech _ false => Done
  | AwaitSpeech _ true =>
      match synthesized b with
      | Some audioContent => SynthesizedSpeech audioContent
      | None => Rejected
      end
  | AwaitEnsureDir _ _ => if ensured b then Done else Rejected
  | AwaitWriteFile _ _ _ => if written b then Done else Rejected
  end.

(** Resume a suspended call until it returns. *)
Fixpoint drive (fuel : nat) (v : Variant) (st : State) (t : Task)
    (b : Collaborators) : option State :=
  match fuel with
  | O => None
  | S fuel' =>
      match resume v st t (settle b (stage t)) (clock b) with
      | Some (st', Some t') => drive fuel' v st' t' b
      | Some (st', None) => Some st'
      | None => None
      end
  end.

(** A call has at most four suspension points. *)
Definition max_awaits : nat := 4.

(** [await processTranscription(callId, transcriptionText, speakerId)] with
    nothing else running in between. *)
Definition processTranscription (v : Variant) (st : State)
    (callId transcriptionText speakerId : string) (b : Collaborators)
  : State :=
  match processTranscription_begin st callId transcriptionText speakerId with
  | (st1, Some t) => default st1 (drive max_awaits v st1 t b)
  | (st1, None) => st1
  end.

(** A caller that awaits each call before it makes the next one. *)
Inductive Request :=
| ReqStart (call_id agent instr : string)
| ReqProcess (callId transcriptionText speakerId : string)
    (b : Collaborators)
| ReqEnd (callId : string).

Definition serve (v : Variant) (st : State) (q : Request) : State :=
  match q with
  | ReqStart call_id agent instr => startSession st call_id agent instr
  | ReqProcess callId transcriptionText speakerId b =>
      processTranscription v st callId transcriptionText speakerId b
  | ReqEnd callId => endSession st callId
  end.

Definition serve_all (v : Variant) (st : State) (qs : list Request) : State :=
  foldl (serve v) st qs.

(** *** Calls interleaved at their awaits *)

Inductive Event :=
| StartSession (call_id agent instr : string)
| ProcessTranscription (callId transcriptionText speakerId : string)
| EndSession (callId : string)
| Settle (i : nat) (r : Settled) (clk : Clock).
    (* the promise awaited by the i-th suspended call settles *)

Record Config := {
  state : State;
  inflight : list Task;     (* the suspended calls of processTranscription *)
}.

Definition start (e : ProcessEnv) : Config :=
  {| state := initial e; inflight := [] |}.

Definition step (v : Variant) (c : Config) (e : Event) : Config :=
  match e with
  | StartSession call_id agent instr =>
      {| state := startSession (state c) call_id agent instr;
         inflight := inflight c |}
  | ProcessTranscription callId transcriptionText speakerId =>
      let '(st, ot) :=
        processTranscription_begin (state c) callId transcriptionText
          speakerId in
      {| state := st; inflight := inflight c ++ option_list ot |}
  | EndSession callId =>
      {| state := endSession (state c) callId; inflight := inflight c |}
  | Settle i r clk =>
      match inflight c !! i with
      | Some t =>
          match resume v (state c) t r clk with
          | Some (st, Some t') =>
              {| state := st; inflight := <[i := t']> (inflight c) |}
          | Some (st, None) =>
              {| state := st; inflight := delete i (inflight c) |}
          | None => c
          end
      | None => c
      end
  end.

Definition exec (v : Variant) (c : Config) (es : list Event) : Config :=
  foldl (step v) c es.

(** The suspended calls that hold session object [l], and those that were
    made for [id]. *)
Definition inflight_on (c : Config) (l : nat) : list Task :=
  filter (λ t, session t = l) (inflight c).

Definition inflight_for (c : Config) (id : string) : list Task :=
  filter (λ t, callId t = id) (inflight c).

(** The fragments that got past the two guards, as seen from outside: the
    session object that took the fragment, the speaker and the text. *)
Record Accepted := {
  acc_session : nat;
  acc_speaker : string;
  acc_text : string;
}.

Definition accepted (c : Config) (e : Event) : option Accepted :=
  match e with
  | ProcessTranscription callId transcriptionText speakerId =>
      match processTranscription_begin (state c) callId transcriptionText
              speakerId with
      | (_, Some t) =>
          Some {| acc_session := session t; acc_speaker := speakerId;
                  acc_text := transcriptionText |}
      | (_, None) => None
      end
  | _ => None
  end.

Fixpoint accepted_log (v : Variant) (c : Config) (es : list Event)
  : list Accepted :=
  match es with
  | [] => []
  | e :: es' => option_list (accepted c e) ++ accepted_log v (step v c e) es'
  end.

End GeminiVoice.

(** ** Date.prototype.toISOString *)

Module IsoDate.

(** [n] in decimal, left-padded with zeros to [width] digits; [0 <= n]. *)
Definition pad (width : nat) (n : Z) : string :=
  let digits := pretty n in
  String.concat ""
    (replicate (width - String.length digits)%nat "0") +:+ digits.

(** Day number (days since 1970-01-01) to proleptic Gregorian
    (year, month, day). *)
Definition civil_from_days (days : Z) : Z * Z * Z :=
  let z := days + 719468 in
  let era := z / 146097 in
  let doe := z - era * 146097 in
  let yoe := (doe - doe / 1460 + doe / 36524 - doe / 146096) / 365 in
  let doy := doe - (365 * yoe + yoe / 4 - yoe / 100) in
  let mp := (5 * doy + 2) / 153 in
  let d := doy - (153 * mp + 2) / 5 + 1 in
  let m := if mp <? 10 then mp + 3 else mp - 9 in
  let y := yoe + era * 400 + (if m <=? 2 then 1 else 0) in
  (y, m, d).

(** Four digits for the years 0 to 9999, a sign and six digits otherwise. *)
Definition year_string (y : Z) : string :=
  if (0 <=? y) && (y <=? 9999) then pad 4 y
  else if y <? 0 then "-" +:+ pad 6 (- y)
  else "+" +:+ pad 6 y.

Definition toISOString (ms : Z) : string :=
  let days := ms / 86400000 in
  let rest := ms mod 86400000 in
  let '(y, m, d) := civil_from_days days in
  year_string y +:+ "-" +:+ pad 2 m +:+ "-" +:+ pad 2 d +:+ "T" +:+
  pad 2 (rest / 3600000) +:+ ":" +:+
  pad 2 (rest / 60000 mod 60) +:+ ":" +:+
  pad 2 (rest / 1000 mod 60) +:+ "." +:+
  pad 3 (rest mod 1000) +:+ "Z".

End IsoDate.

(** ** GET /api/gemini-audio/[meetingId] *)

Module AudioApi.

Inductive Json :=
| JNull
| JString (s : string).

(** [NextResponse.json(body, { status })]; the status defaults to 200. *)
Record NextResponse := {
  status : Z;
  body : list (string * Json);
}.

(** [await params]: the route parameters, or the promise rejects.
    [meetingId = None] is a request that carries no identifier. *)
Inductive Params :=
| ParamsRejected
| ParamsResolved (meetingId : option string).

Definition GET (st : GeminiVoice.State) (params : Params) : NextResponse :=
  match params with
  | ParamsRejected =>
      (* caught by the handler's try/catch *)
      {| status := 500;
         body := [("error", JString "Failed to get audio response")] |}
  | ParamsResolved meetingId =>
      if negb (truthy_opt meetingId) then
        {| status := 400; body := [("error", JString "Missing meetingId")] |}
      else
        let audioResponses :=
          GeminiVoice.getAudioResponses st (default "" meetingId) in
        match last audioResponses with
        | None =>
            {| status := 200;
               body := [("audioUrl", JNull); ("text", JNull)] |}
        | Some latest =>
            {| status := 200;
               body :=
                 [("audioUrl", JString (GeminiVoice.audioUrl latest));
                  ("text", JString (GeminiVoice.text latest));
                  ("timestamp",
                   JString (IsoDate.toISOString
                              (GeminiVoice.timestamp latest)))] |}
        end
  end.

End AudioApi.

(** ** GeminiAudioPlayer: the polling loop and the audio element *)

Module Player.

(** An [onEnded] closure registered on the audio element, or a call of
    [audio.play()]: the feed locator and the cache-busted source. *)
Record Source := {
  locator : string;     (* data.audioUrl *)
  srcUrl : string;      (* `${data.audioUrl}?t=${Date.now()}` *)
}.

Record Player := {
  src : option string;                (* the src attribute of the element,
                                         [None] while it has none *)
  lastPlayedUrlRef : option string;
  isPlayingRef : bool;
  onEnded : list Source;              (* delayed swaps, in registration order *)
  played : list Source;               (* the calls of audio.play() so far *)
}.

Definition mounted : Player :=
  {| src := None; lastPlayedUrlRef := None; isPlayingRef := false;
     onEnded := []; played := [] |}.

(** What one tick of the interval gets from the endpoint. *)
Inductive Fetched :=
| FetchFailed                 (* fetch or response.json() threw *)
| NotOk                       (* !response.ok *)
| Data (audioUrl text : option string).

Inductive Event :=
| Poll (f : Fetched) (now : Z)
| Playing                     (* the element fires 'playing' *)
| Ended                       (* the element fires 'ended' *)
| Pause                       (* the element fires 'pause' *)
| Cleanup.                    (* the effect's cleanup: audio.src = '' *)

Definition make_source (url : string) (now : Z) : Source :=
  {| locator := url; srcUrl := url +:+ "?t=" +:+ pretty now |}.

(** [audio.src = s.srcUrl; audio.load(); await audio.play()] *)
Definition play (p : Player) (s : Source) : Player :=
  {| src := Some (srcUrl s); lastPlayedUrlRef := lastPlayedUrlRef p;
     isPlayingRef := isPlayingRef p; onEnded := onEnded p;
     played := played p ++ [s] |}.

Section Browser.

(** Reading [audio.src] yields the attribute resolved against the document,
    and the empty string while the element has no such attribute. *)
Variable resolve : string → string.

Definition audio_src (p : Player) : string :=
  match src p with
  | Some s => resolve s
  | None => ""
  end.

(** The body of the [setInterval] callback. *)
Definition poll (p : Player) (f : Fetched) (now : Z) : Player :=
  match f with
  | FetchFailed => p
  | NotOk => p
  | Data audioUrl _ =>
      match audioUrl with
      | Some url =>
          if truthy url
             && negb (bool_decide (Some url = lastPlayedUrlRef p))
          then
            let s := make_source url now in
            let p1 :=
              {| src := src p; lastPlayedUrlRef := Some url;
                 isPlayingRef := isPlayingRef p; onEnded := onEnded p;
                 played := played p |} in
            if negb (String.eqb (audio_src p1) (srcUrl s)) then
              if isPlayingRef p1 then
                {| src := src p1; lastPlayedUrlRef := lastPlayedUrlRef p1;
                   isPlayingRef := isPlayingRef p1;
                   onEnded := onEnded p1 ++ [s]; played := played p1 |}
              else play p1 s
            else p1
          else p
      | None => p
      end
  end.

Definition set_playing (b : bool) (p : Player) : Player :=
  {| src := src p; lastPlayedUrlRef := lastPlayedUrlRef p;
     isPlayingRef := b; onEnded := onEnded p; played := played p |}.

(** The 'ended' listeners in registration order: the flag is cleared,
    then every delayed swap removes itself, takes the element and plays. *)
Definition ended (p : Player) : Player :=
  foldl play
    {| src := src p; lastPlayedUrlRef := lastPlayedUrlRef p;
       isPlayingRef := false; onEnded := []; played := played p |}
    (onEnded p).

Definition step (p : Player) (e : Event) : Player :=
  match e with
  | Poll f now => poll p f now
  | Playing => set_playing true p
  | Ended => ended p
  | Pause => set_playing false p
  | Cleanup =>
      {| src := Some ""; lastPlayedUrlRef := lastPlayedUrlRef p;
         isPlayingRef := isPlayingRef p; onEnded := onEnded p;
         played := played p |}
  end.

Definition run (p : Player) (es : list Event) : Player := foldl step p es.

End Browser.

(** The locators the feed delivered, in order; entries without audio are
    not locators. *)
Definition fed (e : Event) : option string :=
  match e with
  | Poll (Data (Some url) _) _ => if truthy url then Some url else None
  | _ => None
  end.

Definition feed (es : list Event) : list string := omap fed es.

(** A feed with runs of equal locators shortened to one. *)
Fixpoint changes (l : list string) : list string :=
  match l with
  | [] => []
  | x :: l' =>
      match l' with
      | [] => [x]
      | y :: _ => if String.eqb x y then changes l' else x :: changes l'
      end
  end.

End Player.

(** ** testGeminiConfiguration (src/lib/test-gemini-config.ts) *)

Module GeminiConfig.

Import GeminiVoice.

Record Results := {
  geminiApiKey : bool;
  geminiConnection : bool;
  googleCloudKeyfile : bool;
  googleCloudProjectId : bool;
  textToSpeech : bool;
  errors : list string;
}.

Definition set_geminiApiKey (r : Results) : Results :=
  {| geminiApiKey := true; geminiConnection := geminiConnection r;
     googleCloudKeyfile := googleCloudKeyfile r;
     googleCloudProjectId := googleCloudProjectId r;
     textToSpeech := textToSpeech r; errors := errors r |}.

Definition set_geminiConnection (r : Results) : Results :=
  {| geminiApiKey := geminiApiKey r; geminiConnection := true;
     googleCloudKeyfile := googleCloudKeyfile r;
     googleCloudProjectId := googleCloudProjectId r;
     textToSpeech := textToSpeech r; errors := errors r |}.

Definition set_googleCloudKeyfile (r : Results) : Results :=
  {| geminiApiKey := geminiApiKey r; geminiConnection := geminiConnection r;
     googleCloudKeyfile := true;
     googleCloudProjectId := googleCloudProjectId r;
     textToSpeech := textToSpeech r; errors := errors r |}.

Definition set_googleCloudProjectId (r : Results) : Results :=
  {| geminiApiKey := geminiApiKey r; geminiConnection := geminiConnection r;
     googleCloudKeyfile := googleCloudKeyfile r;
     googleCloudProjectId := true;
     textToSpeech := textToSpeech r; errors := errors r |}.

Definition set_textToSpeech (r : Results) : Results :=
  {| geminiApiKey := geminiApiKey r; geminiConnection := geminiConnection r;
     googleCloudKeyfile := googleCloudKeyfile r;
     googleCloudProjectId := googleCloudProjectId r;
     textToSpeech := true; errors := errors r |}.

(** [results.errors.push(e)] *)
Definition push_error (e : string) (r : Results) : Results :=
  {| geminiApiKey := geminiApiKey r; geminiConnection := geminiConnection r;
     googleCloudKeyfile := googleCloudKeyfile r;
     googleCloudProjectId := googleCloudProjectId r;
     textToSpeech := textToSpeech r; errors := errors r ++ [e] |}.

(** What a probed call does: it returns, or it raises; [message] is
    [error instanceof Error ? error.message : String(error)]. *)
Inductive Outcome (A : Type) :=
| Returned (a : A)
| Raised (message : string).

Arguments Returned {A} a.
Arguments Raised {A} message.

(** Where the keyfile is. *)
Inductive KeyfileLookup :=
| AtPath (parses : bool)
    (* existsSync(keyfilePath); [parses = false]: reading or JSON.parse
       threw *)
| AtAlternative
    (* not there, but at one of the three alternative locations *)
| NotFound.

(** The answers of the world outside the process. *)
Record Probes := {
  generateContent : Outcome string;       (* response.text() *)
  keyfilePath : string;       (* path.resolve(process.cwd(), keyfile) *)
  keyfileLookup : Outcome KeyfileLookup;
    (* [Raised]: an import or a file-system call threw *)
  synthesizeSpeech : Outcome bool;        (* is response.audioContent truthy *)
}.

(** [a || b] on two environment variables. *)
Definition or_else (a b : option string) : option string :=
  if truthy_opt a then a else b.

(** Tests 1 and 2. *)
Definition test_gemini (env : ProcessEnv) (pr : Probes) (r : Results)
  : Results :=
  let geminiApiKey := or_else (GEMINI_API_KEY env) (GOOGLE_GENAI_API_KEY env) in
  if truthy_opt geminiApiKey then
    let r := set_geminiApiKey r in
    match generateContent pr with
    | Returned text =>
        if truthy text then set_geminiConnection r
        else push_error "Gemini API returned empty response" r
    | Raised message => push_error ("Gemini API error: " +:+ message) r
    end
  else push_error "GEMINI_API_KEY or GOOGLE_GENAI_API_KEY not found" r.

(** Test 3. *)
Definition test_keyfile (env : ProcessEnv) (pr : Probes) (r : Results)
  : Results :=
  if truthy_opt (GOOGLE_CLOUD_KEYFILE env) then
    match keyfileLookup pr with
    | Returned (AtPath parses) =>
        let r := set_googleCloudKeyfile r in
        if parses then r
        else push_error "Keyfile exists but is not valid JSON" r
    | Returned AtAlternative => set_googleCloudKeyfile r
    | Returned NotFound =>
        push_error ("Keyfile path not found: " +:+ keyfilePath pr) r
    | Raised message => push_error ("Error accessing keyfile: " +:+ message) r
    end
  else r.

(** Test 4. *)
Definition test_projectId (env : ProcessEnv) (r : Results) : Results :=
  if truthy_opt (GOOGLE_CLOUD_PROJECT_ID env)
  then set_googleCloudProjectId r else r.

(** Test 5 runs when both variables are set. *)
Definition tts_tested (env : ProcessEnv) : bool :=
  truthy_opt (GOOGLE_CLOUD_KEYFILE env)
  && truthy_opt (GOOGLE_CLOUD_PROJECT_ID env).

Definition test_textToSpeech (env : ProcessEnv) (pr : Probes) (r : Results)
  : Results :=
  if tts_tested env then
    match synthesizeSpeech pr with
    | Returned true => set_textToSpeech r
    | Returned false =>
        push_error "Text-to-Speech API returned empty response" r
    | Raised message =>
        push_error ("Text-to-Speech API error: " +:+ message) r
    end
  else r.

Definition testGeminiConfiguration (env : ProcessEnv) (pr : Probes)
  : Results :=
  let results :=
    {| geminiApiKey := false; geminiConnection := false;
       googleCloudKeyfile := false; googleCloudProjectId := false;
       textToSpeech := false; errors := [] |} in
  test_textToSpeech env pr
    (test_projectId env (test_keyfile env pr (test_gemini env pr results))).

(** [GET /api/test/gemini-config].  Every probe of
    [testGeminiConfiguration] sits in a try block of its own, so the
    handler gets the results. *)
Record TestResponse := {
  success : bool;
  results : Results;
  message : string;
}.

Definition GET (env : ProcessEnv) (pr : Probes) : TestResponse :=
  let results := testGeminiConfiguration env pr in
  {| success := geminiApiKey results && geminiConnection results;
     results := results;
     message :=
       if geminiApiKey results && geminiConnection results
       then "Configuration is valid! Check server logs for details."
       else "Configuration has errors. Check server logs for details." |}.

End GeminiConfig.

(** ** meetingsProcessing: the add-speakers step (src/inngest/functions) *)

Module MeetingsProcessing.

(** The columns of a [user] or [agents] row the step reads. *)
Record Speaker := {
  id : string;
  name : string;
}.

Section Transcript.

(** A [StreamTranscriptItem]; the step reads its [speaker_id] only. *)
Variable Item : Type.
Variable speaker_id : Item → string.

(** [[...new Set(transcript.map((item) => item.speaker_id))]] *)
Definition speakerIds (transcript : list Item) : list string :=
  remove_dups (speaker_id <$> transcript).

(** [db.select().from(table).where(inArray(table.id, speakerIds))], on the
    rows in the order the database yields them. *)
Definition select_in (table : list Speaker) (ids : list string)
  : list Speaker :=
  filter (λ row, id row ∈ ids) table.

(** [speakers.find((speaker) => speaker.id === item.speaker_id)] *)
Definition find_speaker (speakers : list Speaker) (item : Item)
  : option Speaker :=
  List.find (λ speaker, String.eqb (id speaker) (speaker_id item)) speakers.

(** The item with its [user.name]; [fallback] is the version that writes
    [speaker.name || 'Unknown'], the other one writes [speaker.name]. *)
Definition with_speaker (fallback : bool) (speakers : list Speaker)
    (item : Item) : Item * string :=
  match find_speaker speakers item with
  | None => (item, "Unknown")
  | Some speaker =>
      (item,
       if fallback then
         if truthy (name speaker) then name speaker else "Unknown"
       else name speaker)
  end.

Definition add_speakers (fallback : bool) (users agents : list Speaker)
    (transcript : list Item) : list (Item * string) :=
  let userSpeakers := select_in users (speakerIds transcript) in
  let agentSpeakers := select_in agents (speakerIds transcript) in
  let speakers := userSpeakers ++ agentSpeakers in
  with_speaker fallback speakers <$> transcript.

End Transcript.

End MeetingsProcessing.

(** ** Notions used in the statements *)

Import GeminiVoice.

(** *** The net effect of one accepted turn on its session object *)

(** The assistant utterance of the turn, when the model produced one. *)
Definition reply_of (e : ProcessEnv) (b : Collaborators) : option string :=
  if getGeminiClient e then text_or_fallback <$> generated b else None.

(** What [textToSpeech] returns: [Some None] for null, [None] when it throws
    (the client call raised, or the response carried no audio). *)
Definition speech_of (e : ProcessEnv) (b : Collaborators)
  : option (option (list Byte.byte)) :=
  if getTTSClient e then
    match synthesized b with
    | Some (Some audioContent) => Some (Some audioContent)
    | _ => None
    end
  else Some None.

(** The entry step 5 pushes, if it pushes one. *)
Definition recorded (v : Variant) (id : string) (b : Collaborators)
    (audioBuffer : option (list Byte.byte)) (r : string)
  : option AudioResponse :=
  let with_file :=
    {| text := r; audioUrl := audio_url (audio_file_name id (clock b));
       timestamp := new_Date (clock b) |} in
  match v with
  | Ephemeral => Some with_file
  | Durable =>
      match audioBuffer with
      | None => Some {| text := r; audioUrl := ""; timestamp := new_Date (clock b) |}
      | Some _ => if ensured b && written b then Some with_file else None
      end
  end.

Definition user_turn (txt : string) : Message :=
  {| role := "user"; content := txt |}.

Definition assistant_turn (r : string) : Message :=
  {| role := "assistant"; content := r |}.

(** The session object after an accepted call has returned. *)
Definition turn_outcome (v : Variant) (e : ProcessEnv) (id txt : string)
    (b : Collaborators) (s : GeminiVoiceSession) : GeminiVoiceSession :=
  {| call := call s; agentUserId := agentUserId s;
     instructions := instructions s;
     conversationHistory :=
       conversationHistory s ++ user_turn txt ::
         match reply_of e b with
         | Some r => [assistant_turn r]
         | None => []
         end;
     isProcessing := false;
     audioResponses :=
       audioResponses s ++
         match reply_of e b with
         | Some r =>
             match speech_of e b with
             | Some audioBuffer => option_list (recorded v id b audioBuffer r)
             | None => []
             end
         | None => []
         end |}.

(** The file the turn leaves under [AUDIO_STORAGE_DIR], if any. *)
Definition written_file (v : Variant) (e : ProcessEnv) (id : string)
    (b : Collaborators) : option (string * list Byte.byte) :=
  match v, reply_of e b, speech_of e b with
  | Durable, Some _, Some (Some audioBuffer) =>
      if ensured b && written b
      then Some (audio_file_name id (clock b), audioBuffer)
      else None
  | _, _, _ => None
  end.

(** Every suspended call holds a session object whose flag is set, and no two
    suspended calls hold the same object. *)
Definition single_flight (c : Config) : Prop :=
  (∀ t, t ∈ inflight c →
        ∃ s, objects (state c) !! session t = Some s ∧ isProcessing s = true) ∧
  NoDup (session <$> inflight c).

(** Sample inputs: a process with only the generative model configured, one
    with text-to-speech as well, and the answers of a turn that goes well. *)
Definition env_text_only : ProcessEnv :=
  {| GOOGLE_CLOUD_KEYFILE := None; GOOGLE_CLOUD_PROJECT_ID := None;
     GEMINI_API_KEY := Some "key"; GOOGLE_GENAI_API_KEY := None |}.

Definition env_with_tts : ProcessEnv :=
  {| GOOGLE_CLOUD_KEYFILE := Some "keyfile.json";
     GOOGLE_CLOUD_PROJECT_ID := Some "project";
     GEMINI_API_KEY := Some "key"; GOOGLE_GENAI_API_KEY := None |}.

Definition sample_clock : Clock :=
  {| Date_now := 1700000000000; new_Date := 1700000000001 |}.

Definition ten_bytes : list Byte.byte := replicate 10 Byte.x00.

Definition sunny : Collaborators :=
  {| generated := Some "It's sunny."; synthesized := Some (Some ten_bytes);
     ensured := true; written := true; clock := sample_clock |}.

(** Collaborators whose generation succeeds but whose text-to-speech answer
    carries no audio, and collaborators whose generation raises. *)
Definition no_audio_payload : Collaborators :=
  {| generated := Some "It's sunny."; synthesized := Some None;
     ensured := true; written := true; clock := sample_clock |}.

Definition generation_raises : Collaborators :=
  {| generated := None; synthesized := Some (Some ten_bytes);
     ensured := true; written := true; clock := sample_clock |}.

(** The user turns of a history, and the accepted fragments of a session
    object. *)
Definition user_turns (h : list Message) : list Message :=
  filter (λ m, role m = "user") h.

Definition accepted_on (l : nat) (log : list Accepted) : list Accepted :=
  filter (λ a, acc_session a = l) log.

(** What the accepted fragments say about the objects: every user turn is an
    accepted fragment, in order, and none was spoken by the agent. *)
Definition attributed (c : Config) (log : list Accepted) : Prop :=
  Forall (λ a, (acc_session a < length (objects (state c)))%nat) log ∧
  ∀ l s, objects (state c) !! l = Some s →
    user_turns (conversationHistory s) =
      (λ a, user_turn (acc_text a)) <$> accepted_on l log ∧
    Forall (λ a, acc_speaker a ≠ agentUserId s) (accepted_on l log).

(** *** A caller that ingests fragments one after the other *)

Record Ingest := {
  in_text : string;
  in_speaker : string;
  in_answers : Collaborators;     (* what the collaborators answer this time *)
}.

Definition ingest (v : Variant) (id : string) (st : State) (c : Ingest)
  : State :=
  processTranscription v st id (in_text c) (in_speaker c) (in_answers c).

Definition ingest_all (v : Variant) (id : string) (st : State)
    (calls : list Ingest) : State :=
  foldl (ingest v id) st calls.

(** What a call adds to the history of a session whose agent is [agent]. *)
Definition contribution (e : ProcessEnv) (agent : string) (c : Ingest)
  : list Message :=
  if String.eqb (in_speaker c) agent then []
  else user_turn (in_text c) ::
       match reply_of e (in_answers c) with
       | Some r => [assistant_turn r]
       | None => []
       end.

(** A turn that was not dropped and whose generation succeeded, and one that
    was not dropped and whose generation failed. *)
Definition successful (e : ProcessEnv) (agent : string) (c : Ingest) : bool :=
  negb (String.eqb (in_speaker c) agent) &&
  bool_decide (is_Some (reply_of e (in_answers c))).

Definition failed (e : ProcessEnv) (agent : string) (c : Ingest) : bool :=
  negb (String.eqb (in_speaker c) agent) &&
  bool_decide (reply_of e (in_answers c) = None).

Definition count {A} (p : A → bool) (l : list A) : nat :=
  length (List.filter p l).

(** The two bodies the endpoint answers with on success. *)
Definition no_data : AudioApi.NextResponse :=
  {| AudioApi.status := 200;
     AudioApi.body := [("audioUrl", AudioApi.JNull); ("text", AudioApi.JNull)] |}.

Definition latest_entry (r : AudioResponse) : AudioApi.NextResponse :=
  {| AudioApi.status := 200;
     AudioApi.body :=
       [("audioUrl", AudioApi.JString (audioUrl r));
        ("text", AudioApi.JString (text r));
        ("timestamp", AudioApi.JString (IsoDate.toISOString (timestamp r)))] |}.

(** *** The two copies side by side *)




(** *** The player in a browser *)

(** A document served from the development origin: relative locators resolve
    against it. *)
Definition localhost (s : string) : string := "http://localhost:3000" +:+ s.

(** The locators the player has played or holds for a delayed swap. *)
Definition taken (p : Player.Player) : list string :=
  Player.locator <$> (Player.played p ++ Player.onEnded p).

(** The call identifiers [startSession] was called for, in order, and how
    often it was called for [id]. *)
Definition started (e : Event) : option string :=
  match e with
  | StartSession call_id _ _ => Some call_id
  | _ => None
  end.

Definition starts_of (id : string) (es : list Event) : list string :=
  filter (λ x, x = id) (omap started es).

(** Session objects are made by [startSession] only and keep their [call];
    the map and the suspended calls point to objects of their own call. *)
Definition registered (c : Config) (es : list Event) : Prop :=
  call <$> objects (state c) = omap started es ∧
  (∀ t, t ∈ inflight c →
        ∃ s, objects (state c) !! session t = Some s ∧ call s = callId t) ∧
  (∀ id l, sessions (state c) !! id = Some l →
           ∃ s, objects (state c) !! l = Some s ∧ call s = id).

(** *** The turns of a session object, as seen from outside *)

(** An accepted fragment and the assistant utterance generated for it, if
    one was. *)
Record Turn := {
  said : string;
  answer : option string;
}.

Definition render (t : Turn) : list Message :=
  user_turn (said t) ::
  match answer t with
  | Some r => [assistant_turn r]
  | None => []
  end.

Definition answered (r : string) (t : Turn) : Turn :=
  {| said := said t; answer := Some r |}.

Definition is_answered (t : Turn) : bool :=
  match answer t with
  | Some _ => true
  | None => false
  end.

(** What a resumption pushes on the history of the object it holds. *)
Definition spoken (t : Task) (r : Settled) : list Message :=
  match stage t, r with
  | AwaitGenerate (Some _), GeneratedText g =>
      [assistant_turn (text_or_fallback g)]
  | _, _ => []
  end.

(** What event [e], met in configuration [c], means for the turns of session
    object [l]: a fragment that passes the guards on [l] opens a turn, and
    the assistant utterance pushed by the call suspended on [l] answers the
    turn opened last. *)
Definition turns_step (l : nat) (c : Config) (log : list Turn) (e : Event)
  : list Turn :=
  match e with
  | ProcessTranscription id txt spk =>
      match processTranscription_begin (state c) id txt spk with
      | (_, Some t) =>
          if decide (session t = l)
          then log ++ [ {| said := txt; answer := None |} ]
          else log
      | (_, None) => log
      end
  | Settle i r _ =>
      match inflight c !! i with
      | Some t =>
          if decide (session t = l) then
            match spoken t r with
            | m :: _ => alter (answered (content m)) (pred (length log)) log
            | [] => log
            end
          else log
      | None => log
      end
  | _ => log
  end.

Fixpoint turns_on (v : Variant) (l : nat) (c : Config) (log : list Turn)
    (es : list Event) : list Turn :=
  match es with
  | [] => log
  | e :: es' => turns_on v l (step v c e) (turns_step l c log e) es'
  end.

(** The history of object [l] is its turns rendered in order, and while a
    call is suspended on [l] awaiting the model, the last turn is open. *)
Definition turns_ok (c : Config) (l : nat) (log : list Turn) : Prop :=
  match objects (state c) !! l with
  | Some s =>
      conversationHistory s = concat (render <$> log) ∧
      ∀ t p, t ∈ inflight c → session t = l → stage t = AwaitGenerate p →
             ∃ log0 t0, log = log0 ++ [t0] ∧ answer t0 = None
  | None => log = []
  end.

(** The settlements [drive] delivers to a call, as events for the [i]-th
    suspended call. *)
Fixpoint schedule (fuel : nat) (v : Variant) (st : State) (t : Task)
    (b : Collaborators) (i : nat) : list Event :=
  match fuel with
  | O => []
  | S fuel' =>
      Settle i (settle b (stage t)) (clock b) ::
      match resume v st t (settle b (stage t)) (clock b) with
      | Some (st', Some t') => schedule fuel' v st' t' b i
      | _ => []
      end
  end.

(** *** Notions for the further properties of the service *)

(** The call an event is about: the argument of the three entry points, and
    for a settlement the call the suspended invocation was made for. *)
Definition concerns (c : Config) (e : Event) : option string :=
  match e with
  | StartSession call_id _ _ => Some call_id
  | ProcessTranscription id _ _ => Some id
  | EndSession id => Some id
  | Settle i _ _ => callId <$> inflight c !! i
  end.

(** A session object later in an execution: the same call, agent and
    instructions, and a history and a responses sequence that were only
    appended to. *)
Definition grown (s s' : GeminiVoiceSession) : Prop :=
  call s' = call s ∧ agentUserId s' = agentUserId s ∧
  instructions s' = instructions s ∧
  conversationHistory s `prefix_of` conversationHistory s' ∧
  audioResponses s `prefix_of` audioResponses s'.

(** The assistant utterances of a history, in order. *)
Definition assistant_texts (h : list Message) : list string :=
  content <$> filter (λ m, role m = "assistant") h.

(** The utterance a suspended call has generated and not yet recorded. *)
Definition pending_reply (g : Stage) : option string :=
  match g with
  | AwaitGenerate _ => None
  | AwaitSpeech geminiResponse _ => Some geminiResponse
  | AwaitEnsureDir geminiResponse _ => Some geminiResponse
  | AwaitWriteFile geminiResponse _ _ => Some geminiResponse
  end.

(** Recorded texts are assistant utterances of the history, in order; the
    utterance of a call that is past generation is the last one, and is not
    recorded yet. *)
Definition responses_follow_history (c : Config) : Prop :=
  ∀ l s, objects (state c) !! l = Some s →
    text <$> audioResponses s `sublist_of`
      assistant_texts (conversationHistory s) ∧
    ∀ t g, t ∈ inflight c → session t = l →
           pending_reply (stage t) = Some g →
           ∃ done, assistant_texts (conversationHistory s) = done ++ [g] ∧
                   text <$> audioResponses s `sublist_of` done.

(** An entry the service pushes on a history. *)
Definition well_formed_turn (m : Message) : Prop :=
  m = user_turn (content m) ∨
  (m = assistant_turn (content m) ∧ content m ≠ "").

(** A recorded entry whose locator, if it has one, names a file on disk. *)
Definition located (d : gmap string (list Byte.byte)) (r : AudioResponse)
  : Prop :=
  audioUrl r = "" ∨
  ∃ name, audioUrl r = audio_url name ∧ is_Some (d !! name).

(** The stages the copy without file writes can be suspended at. *)
Definition before_saving (g : Stage) : Prop :=
  match g with
  | AwaitGenerate _ | AwaitSpeech _ _ => True
  | AwaitEnsureDir _ _ | AwaitWriteFile _ _ _ => False
  end.

(** The copy without file writes: an empty disk, no call suspended in a file
    operation, and a file name in every recorded entry. *)
Definition nothing_saved (c : Config) : Prop :=
  disk (state c) = ∅ ∧
  Forall (λ t, before_saving (stage t)) (inflight c) ∧
  ∀ l s, objects (state c) !! l = Some s →
         Forall (λ r, ∃ name, audioUrl r = audio_url name) (audioResponses s).

(** A call that awaits the model asked it about the conversation as its
    session object has it now, which ends with the fragment of the call. *)
Definition prompt_is_current (c : Config) : Prop :=
  ∀ t p s, t ∈ inflight c → stage t = AwaitGenerate (Some p) →
    objects (state c) !! session t = Some s →
    p = build_prompt (instructions s) (conversationHistory s) ∧
    last (conversationHistory s) = Some (user_turn (transcriptionText t)).

(** A source as the interval callback makes it. *)
Definition cache_busted (s : Player.Source) : Prop :=
  ∃ now, s = Player.make_source (Player.locator s) now.

(** The name a transcript item is given when the speaker rows are looked up
    in the whole tables, users first. *)
Definition display_name {Item} (speaker_id : Item → string)
    (users agents : list MeetingsProcessing.Speaker) (item : Item) : string :=
  match MeetingsProcessing.find_speaker Item speaker_id (users ++ agents) item
  with
  | Some speaker =>
      if truthy (MeetingsProcessing.name speaker)
      then MeetingsProcessing.name speaker else "Unknown"
  | None => "Unknown"
  end.

(** *** The player's fetch of the retrieval endpoint *)

(** A string member of the JSON body; [None] for null or a missing member. *)
Definition json_member (k : string) (b : list (string * AudioApi.Json))
  : option string :=
  match List.find (λ kv, String.eqb (fst kv) k) b with
  | Some (_, AudioApi.JString v) => Some v
  | _ => None
  end.

(** What [fetch] and [response.json()] hand to the interval callback for an
    answer of the endpoint: [response.ok] is a status from 200 to 299. *)
Definition fetched (r : AudioApi.NextResponse) : Player.Fetched :=
  if (200 <=? AudioApi.status r) && (AudioApi.status r <=? 299)
  then Player.Data (json_member "audioUrl" (AudioApi.body r))
                   (json_member "text" (AudioApi.body r))
  else Player.NotOk.

(** Unfold the five tests of the configuration test. *)
Ltac run_tests :=
  unfold GeminiConfig.GET, GeminiConfig.testGeminiConfiguration,
    GeminiConfig.test_textToSpeech, GeminiConfig.test_projectId,
    GeminiConfig.test_keyfile, GeminiConfig.test_gemini,
    GeminiConfig.tts_tested, getTTSClient, getGeminiClient.

(** The outcome of one resumption, case by case. *)
Ltac resume_cases H :=
  unfold resume, store_response in H;
  repeat case_match; simplify_eq; simpl in *.

(** * Properties *)

(** ** Session objects under the operations *)

Section Objects.

Implicit Types (st : State) (l : nat) (s : GeminiVoiceSession) (t : Task).

Lemma lookup_mutate st l l' f :
  objects (mutate l f st) !! l' =
  if decide (l = l') then f <$> objects st !! l else objects st !! l'.
Proof.
  unfold mutate; simpl. rewrite list_lookup_alter.
  by destruct (decide (l = l')).
Qed.

Lemma lookup_mutate_eq st l f s :
  objects st !! l = Some s → objects (mutate l f st) !! l = Some (f s).
Proof. intros H. rewrite lookup_mutate, decide_True, H by done. done. Qed.

Lemma lookup_mutate_ne st l l' f :
  l ≠ l' → objects (mutate l f st) !! l' = objects st !! l'.
Proof. intros H. by rewrite lookup_mutate, decide_False. Qed.

Lemma get_Some st id l s :
  get st id = Some (l, s) ↔ sessions st !! id = Some l ∧ objects st !! l = Some s.
Proof.
  unfold get. split.
  - destruct (sessions st !! id) as [l0|]; [|done].
    destruct (objects st !! l0) as [s0|] eqn:E; [|done].
    intros [= <- <-]. done.
  - intros [-> ->]. done.
Qed.

Lemma get_None st id :
  sessions st !! id = None → get st id = None.
Proof. unfold get. by intros ->. Qed.

End Objects.

Section Resume.

Implicit Types (st : State) (l : nat) (s : GeminiVoiceSession) (t : Task).

(** A resumption touches no session object but the one the call holds. *)
Lemma resume_other v st t r clk st' ot l :
  resume v st t r clk = Some (st', ot) →
  l ≠ session t →
  objects st' !! l = objects st !! l.
Proof.
  intros H Hl. resume_cases H;
    rewrite ?list_lookup_alter_ne by done; done.
Qed.

Lemma resume_sessions v st t r clk st' ot :
  resume v st t r clk = Some (st', ot) →
  sessions st' = sessions st ∧ env st' = env st.
Proof. intros H. resume_cases H; done. Qed.

(** A call that stays suspended keeps its object, and the flag stays set. *)
Lemma resume_continues v st t r clk st' t' s :
  resume v st t r clk = Some (st', Some t') →
  objects st !! session t = Some s →
  session t' = session t ∧ callId t' = callId t ∧
  transcriptionText t' = transcriptionText t ∧
  ∃ s', objects st' !! session t = Some s' ∧
        isProcessing s' = isProcessing s ∧
        agentUserId s' = agentUserId s ∧
        audioResponses s' = audioResponses s.
Proof.
  intros H Hs. resume_cases H; repeat split; eauto;
    rewrite list_lookup_alter_eq, Hs; simpl; eauto.
Qed.

(** A call that returns has run its [finally] block. *)
Lemma resume_returns v st t r clk st' s :
  resume v st t r clk = Some (st', None) →
  objects st !! session t = Some s →
  ∃ s', objects st' !! session t = Some s' ∧ isProcessing s' = false.
Proof.
  intros H Hs. resume_cases H;
    rewrite ?list_lookup_alter_eq, ?Hs; simpl; eauto.
Qed.

(** A resumption adds no user turn and keeps the identity of the agent. *)
Lemma resume_user_turns v st (t : Task) r clk st' ot l s :
  resume v st t r clk = Some (st', ot) →
  objects st !! l = Some s →
  ∃ s', objects st' !! l = Some s' ∧
        agentUserId s' = agentUserId s ∧ call s' = call s ∧
        user_turns (conversationHistory s') =
          user_turns (conversationHistory s).
Proof.
  intros H Hs. unfold user_turns.
  destruct (decide (l = session t)) as [->|Hne].
  - resume_cases H;
      rewrite ?list_alter_alter_eq, ?list_lookup_alter_eq, ?Hs; simpl;
      eexists; (split; [reflexivity|]); simpl;
      rewrite ?filter_app, ?app_nil_r; done.
  - exists s. by rewrite (resume_other _ _ _ _ _ _ _ _ H Hne).
Qed.

Lemma resume_length v st (t : Task) r clk st' ot :
  resume v st t r clk = Some (st', ot) →
  length (objects st') = length (objects st).
Proof. intros H. resume_cases H; by rewrite ?length_alter. Qed.

End Resume.

(** ** The guards of processTranscription *)

Section Guards.

Implicit Types (st : State) (l : nat) (s : GeminiVoiceSession) (t : Task).

Lemma begin_no_session st id txt spk :
  get st id = None → processTranscription_begin st id txt spk = (st, None).
Proof. unfold processTranscription_begin. by intros ->. Qed.

Lemma begin_busy st id txt spk l s :
  get st id = Some (l, s) → isProcessing s = true →
  processTranscription_begin st id txt spk = (st, None).
Proof. unfold processTranscription_begin. by intros -> ->. Qed.

Lemma begin_agent st id txt l s :
  get st id = Some (l, s) →
  processTranscription_begin st id txt (agentUserId s) = (st, None).
Proof.
  unfold processTranscription_begin. intros ->.
  rewrite String.eqb_refl. by destruct (isProcessing s).
Qed.

(** A call that returned at a guard changed nothing. *)
Lemma begin_dropped st id txt spk st' :
  processTranscription_begin st id txt spk = (st', None) → st' = st.
Proof.
  unfold processTranscription_begin. intros H.
  repeat case_match; by simplify_eq.
Qed.

(** A call that got past the guards: what it found and what it left. *)
Lemma begin_accepted st id txt spk st' t :
  processTranscription_begin st id txt spk = (st', Some t) →
  ∃ s, get st id = Some (session t, s) ∧
       isProcessing s = false ∧
       spk ≠ agentUserId s ∧
       callId t = id ∧ transcriptionText t = txt ∧
       (∃ p, stage t = AwaitGenerate p) ∧
       st' = mutate (session t)
               (push_history {| role := "user"; content := txt |})
               (mutate (session t) (set_isProcessing true) st).
Proof.
  unfold processTranscription_begin. intros H.
  destruct (get st id) as [[l s]|] eqn:Hg; [|by simplify_eq].
  destruct (isProcessing s) eqn:Hp; [by simplify_eq|].
  destruct (String.eqb spk (agentUserId s)) eqn:Ha; [by simplify_eq|].
  apply String.eqb_neq in Ha. simplify_eq; simpl. eauto 10.
Qed.

Lemma begin_accepted_lookup st id txt spk st' t s :
  processTranscription_begin st id txt spk = (st', Some t) →
  objects st !! session t = Some s →
  objects st' !! session t =
    Some (push_history {| role := "user"; content := txt |}
            (set_isProcessing true s)) ∧
  (∀ l, l ≠ session t → objects st' !! l = objects st !! l) ∧
  sessions st' = sessions st.
Proof.
  intros H Hs. apply begin_accepted in H as (s0 & _ & _ & _ & _ & _ & _ & ->).
  split; [|split; [|done]].
  - erewrite lookup_mutate_eq; [done|]. by apply lookup_mutate_eq.
  - intros l Hl. by rewrite !lookup_mutate_ne.
Qed.

End Guards.

(** ** Single flight *)

Section SingleFlight.

Implicit Types (c : Config) (t : Task).

Lemma elsewhere_other_object (ts : list Task) i j t t2 :
  NoDup (session <$> ts) →
  ts !! i = Some t → ts !! j = Some t2 → i ≠ j →
  session t2 ≠ session t.
Proof.
  intros Hnd Hi Hj Hij Heq. apply Hij.
  apply (NoDup_lookup (session <$> ts) i j (session t) Hnd).
  - by rewrite list_lookup_fmap, Hi.
  - by rewrite list_lookup_fmap, Hj, <- Heq.
Qed.

Lemma elem_of_delete_elsewhere (ts : list Task) i t2 :
  t2 ∈ delete i ts → ∃ j, j ≠ i ∧ ts !! j = Some t2.
Proof.
  intros [j Hj]%list_elem_of_lookup. rewrite list_lookup_delete in Hj.
  destruct (decide (j < i)%nat); eexists; (split; [|exact Hj]); lia.
Qed.

Lemma elem_of_insert_elsewhere (ts : list Task) i t' t2 :
  t2 ∈ <[i := t']> ts → t2 = t' ∨ ∃ j, j ≠ i ∧ ts !! j = Some t2.
Proof.
  intros [j Hj]%list_elem_of_lookup.
  apply list_lookup_insert_Some in Hj as [(-> & -> & _)|[Hne Hj]]; eauto.
Qed.

Lemma single_flight_start e : single_flight (start e).
Proof.
  split; simpl.
  - intros t Ht. by apply elem_of_nil in Ht.
  - constructor.
Qed.

Lemma single_flight_step v c e :
  single_flight c → single_flight (step v c e).
Proof.
  intros [Hbusy Hnd]. destruct e as [id a ins|id txt spk|id|i r clk]; simpl.
  - (* startSession allocates a new object *)
    split; [|done]. simpl. intros t Ht.
    destruct (Hbusy t Ht) as (s & Hs & Hp). exists s. split; [|done].
    by apply lookup_app_l_Some.
  - destruct (processTranscription_begin (state c) id txt spk)
      as [st [t|]] eqn:Hb; simpl.
    + (* accepted: the flag was clear, so no suspended call holds the object *)
      pose proof (begin_accepted _ _ _ _ _ _ Hb)
        as (s & [_ Hs]%get_Some & Hp & _).
      destruct (begin_accepted_lookup _ _ _ _ _ _ _ Hb Hs) as (Hl & Hother & _).
      assert (Hfresh : ∀ t2, t2 ∈ inflight c → session t2 ≠ session t).
      { intros t2 Ht2 Heq. destruct (Hbusy t2 Ht2) as (s2 & Hs2 & Hp2).
        rewrite Heq in Hs2. congruence. }
      split.
      * intros t2 [Ht2| ->%list_elem_of_singleton]%elem_of_app.
        -- destruct (Hbusy t2 Ht2) as (s2 & Hs2 & Hp2). exists s2.
           split; [|done]. rewrite Hother; [done|]. by apply Hfresh.
        -- eexists. split; [exact Hl|done].
      * simpl. rewrite fmap_app. apply NoDup_app. split; [done|]. split.
        -- intros l [t2 [-> Ht2]]%list_elem_of_fmap
             [Hl2|Hl2]%elem_of_cons; [|by apply elem_of_nil in Hl2].
           by apply (Hfresh t2).
        -- apply NoDup_singleton.
    + apply begin_dropped in Hb as ->. rewrite app_nil_r. done.
  - done.
  - destruct (inflight c !! i) as [t|] eqn:Hi; [|done].
    destruct (Hbusy t) as (s & Hs & Hp);
      [by eapply list_elem_of_lookup_2|].
    destruct (resume v (state c) t r clk) as [[st [t'|]]|] eqn:Hr; [| |done].
    + (* the call stays suspended on the same object, flag still set *)
      destruct (resume_continues _ _ _ _ _ _ _ _ Hr Hs)
        as (Hsame & _ & _ & s' & Hs' & Hp' & _).
      split; simpl.
      * intros t2 [->|(j & Hj & Ht2)]%elem_of_insert_elsewhere.
        -- exists s'. rewrite Hsame. split; congruence.
        -- destruct (Hbusy t2) as (s2 & Hs2 & Hp2);
             [by eapply list_elem_of_lookup_2|].
           exists s2. split; [|done].
           rewrite (resume_other _ _ _ _ _ _ _ _ Hr); [done|].
           by eapply elsewhere_other_object.
      * rewrite list_fmap_insert, Hsame, list_insert_id; [done|].
        by rewrite list_lookup_fmap, Hi.
    + (* the call returns: the others hold other objects *)
      split; simpl.
      * intros t2 (j & Hj & Ht2)%elem_of_delete_elsewhere.
        destruct (Hbusy t2) as (s2 & Hs2 & Hp2);
          [by eapply list_elem_of_lookup_2|].
        exists s2. split; [|done].
        rewrite (resume_other _ _ _ _ _ _ _ _ Hr); [done|].
        by eapply elsewhere_other_object.
      * rewrite list_fmap_delete.
        eapply sublist_NoDup; [done|apply sublist_delete].
Qed.

Lemma single_flight_exec v c es :
  single_flight c → single_flight (exec v c es).
Proof.
  revert c. induction es as [|e es IH]; intros c Hc; [done|].
  simpl. apply IH. by apply single_flight_step.
Qed.

Lemma at_most_one_with_key {A B} `{EqDecision B} (f : A → B) (b : B)
    (l : list A) :
  NoDup (f <$> l) → (length (filter (λ x, f x = b) l) ≤ 1)%nat.
Proof.
  induction l as [|x l IH]; simpl; [lia|].
  intros [Hx Hl]%NoDup_cons. rewrite filter_cons.
  destruct (decide (f x = b)) as [<-|]; [|by apply IH].
  destruct (filter (λ y, f y = f x) l) as [|y k] eqn:E; [simpl; lia|].
  exfalso. apply Hx.
  assert (Hy : y ∈ filter (λ y, f y = f x) l) by (rewrite E; left).
  apply list_elem_of_filter in Hy as [<- Hy]. by apply list_elem_of_fmap_2.
Qed.

End SingleFlight.

(** ** One session object per startSession *)

Section Registered.

Implicit Types (c : Config) (st : State) (t : Task).

Lemma calls_preserved (os os' : list GeminiVoiceSession) :
  length os' = length os →
  (∀ l s, os !! l = Some s → ∃ s', os' !! l = Some s' ∧ call s' = call s) →
  call <$> os' = call <$> os.
Proof.
  intros Hlen H. apply list_eq. intros j. rewrite !list_lookup_fmap.
  destruct (os !! j) as [s|] eqn:E.
  - destruct (H _ _ E) as (s' & Hs' & Hc). rewrite Hs'. simpl. by rewrite Hc.
  - apply lookup_ge_None in E. rewrite <- Hlen in E.
    apply lookup_ge_None in E. by rewrite E.
Qed.

Lemma resume_calls v st t r clk st' ot :
  resume v st t r clk = Some (st', ot) →
  call <$> objects st' = call <$> objects st.
Proof.
  intros H. apply calls_preserved; [by eapply resume_length|].
  intros l s Hs.
  destruct (resume_user_turns _ _ _ _ _ _ _ _ _ H Hs) as (s' & ? & _ & ? & _).
  eauto.
Qed.

Lemma begin_call st id txt spk st' t :
  processTranscription_begin st id txt spk = (st', Some t) →
  length (objects st') = length (objects st) ∧
  ∀ l s, objects st !! l = Some s →
         ∃ s', objects st' !! l = Some s' ∧ call s' = call s.
Proof.
  intros Hb.
  pose proof (begin_accepted _ _ _ _ _ _ Hb)
    as (s0 & [_ Hs0]%get_Some & _ & _ & _ & _ & _ & Hst).
  destruct (begin_accepted_lookup _ _ _ _ _ _ _ Hb Hs0) as (Hnew & Hother & _).
  split.
  - rewrite Hst. simpl. by rewrite !length_alter.
  - intros l s Hs. destruct (decide (l = session t)) as [->|Hne].
    + rewrite Hs0 in Hs. injection Hs as <-. eauto.
    + rewrite Hother by done. eauto.
Qed.

Lemma registered_start e : registered (start e) [].
Proof.
  split; [done|]. split.
  - intros t Ht. by apply elem_of_nil in Ht.
  - intros id l Hl. simpl in Hl. by rewrite lookup_empty in Hl.
Qed.

Lemma registered_step v c es e :
  registered c es → registered (step v c e) (es ++ [e]).
Proof.
  intros (Hcalls & Htasks & Hmap). unfold registered.
  rewrite omap_app. simpl.
  destruct e as [id a ins|id txt spk|id|i r clk]; simpl; rewrite ?app_nil_r.
  - (* startSession: one more object, registered under its own call *)
    split; [by rewrite fmap_app, Hcalls|]. split.
    + intros t Ht. destruct (Htasks t Ht) as (s & Hs & Hc).
      exists s. split; [by apply lookup_app_l_Some|done].
    + intros id' l Hl. destruct (decide (id = id')) as [<-|Hne].
      * rewrite lookup_insert_eq in Hl. injection Hl as <-.
        eexists. split.
        { rewrite lookup_app_r by done. rewrite Nat.sub_diag. reflexivity. }
        reflexivity.
      * rewrite lookup_insert_ne in Hl by done.
        destruct (Hmap _ _ Hl) as (s & Hs & Hc).
        exists s. split; [by apply lookup_app_l_Some|done].
  - destruct (processTranscription_begin (state c) id txt spk)
      as [st [t|]] eqn:Hb; simpl.
    + destruct (begin_call _ _ _ _ _ _ Hb) as [Hlen Hkeep].
      pose proof (begin_accepted _ _ _ _ _ _ Hb)
        as (s0 & [Hreg Hs0]%get_Some & _ & _ & Hid & _ & _ & Hst).
      split; [by rewrite (calls_preserved _ _ Hlen Hkeep)|]. split.
      * intros t2 [Ht2| ->%list_elem_of_singleton]%elem_of_app.
        -- destruct (Htasks t2 Ht2) as (s & Hs & Hc).
           destruct (Hkeep _ _ Hs) as (s' & Hs' & Hc'). exists s'.
           split; [done|congruence].
        -- destruct (Hmap _ _ Hreg) as (s & Hs & Hc).
           destruct (Hkeep _ _ Hs) as (s' & Hs' & Hc'). exists s'.
           split; [done|congruence].
      * intros id' l Hl. rewrite Hst in Hl. simpl in Hl.
        destruct (Hmap _ _ Hl) as (s & Hs & Hc).
        destruct (Hkeep _ _ Hs) as (s' & Hs' & Hc'). exists s'.
        split; [done|congruence].
    + apply begin_dropped in Hb as ->. rewrite app_nil_r. done.
  - (* endSession only forgets *)
    split; [done|]. split; [done|].
    intros id' l Hl. apply lookup_delete_Some in Hl as [_ Hl]. eauto.
  - destruct (inflight c !! i) as [t|] eqn:Hi; [|done].
    destruct (resume v (state c) t r clk) as [[st ot]|] eqn:Hr; [|done].
    assert (Hkeep : ∀ l s, objects (state c) !! l = Some s →
                      ∃ s', objects st !! l = Some s' ∧ call s' = call s).
    { intros l s Hs.
      destruct (resume_user_turns _ _ _ _ _ _ _ _ _ Hr Hs)
        as (s' & ? & _ & ? & _). eauto. }
    assert (Hreg : ∀ id' l, sessions st !! id' = Some l →
                     ∃ s, objects st !! l = Some s ∧ call s = id').
    { intros id' l Hl.
      rewrite (proj1 (resume_sessions _ _ _ _ _ _ _ Hr)) in Hl.
      destruct (Hmap _ _ Hl) as (s & Hs & Hc).
      destruct (Hkeep _ _ Hs) as (s' & Hs' & Hc'). exists s'.
      split; [done|congruence]. }
    assert (Hold : ∀ t2, t2 ∈ inflight c →
                     ∃ s, objects st !! session t2 = Some s ∧
                          call s = callId t2).
    { intros t2 Ht2. destruct (Htasks t2 Ht2) as (s & Hs & Hc).
      destruct (Hkeep _ _ Hs) as (s' & Hs' & Hc'). exists s'.
      split; [done|congruence]. }
    destruct ot as [t'|]; simpl;
      (split; [by rewrite (resume_calls _ _ _ _ _ _ _ Hr)|]);
      (split; [|done]).
    + intros t2 [->|(j & _ & Ht2)]%elem_of_insert_elsewhere.
      * destruct (Htasks t) as (s & Hs & Hc);
          [by eapply list_elem_of_lookup_2|].
        destruct (resume_continues _ _ _ _ _ _ _ _ Hr Hs)
          as (Hsame & Hid & _).
        destruct (Hold t) as (s' & Hs' & Hc');
          [by eapply list_elem_of_lookup_2|].
        exists s'. rewrite Hsame, Hid. done.
      * apply Hold. by eapply list_elem_of_lookup_2.
    + intros t2 Ht2%list_elem_of_delete_inv. by apply Hold.
Qed.

Lemma registered_exec v e es : registered (exec v (start e) es) es.
Proof.
  induction es as [|x es IH] using rev_ind.
  - apply registered_start.
  - unfold exec. rewrite foldl_snoc. by apply registered_step.
Qed.

Lemma only_one_position {A} `{EqDecision A} (x : A) (l : list A) i j :
  (length (filter (λ y, y = x) l) ≤ 1)%nat →
  l !! i = Some x → l !! j = Some x → i = j.
Proof.
  revert i j. induction l as [|a l IH]; intros i j Hlen Hi Hj; [done|].
  rewrite filter_cons in Hlen.
  destruct (decide (a = x)) as [->|Hne]; simpl in Hlen.
  - assert (Hnone : ∀ k, l !! k ≠ Some x).
    { intros k Hk.
      assert (x ∈ filter (λ y, y = x) l) as Hin.
      { apply list_elem_of_filter.
        split; [done|by eapply list_elem_of_lookup_2]. }
      destruct (filter (λ y, y = x) l); [by apply elem_of_nil in Hin|].
      simpl in Hlen. lia. }
    destruct i as [|i], j as [|j]; simpl in *;
      [done|by destruct (Hnone j)|by destruct (Hnone i)..].
  - destruct i as [|i], j as [|j]; simpl in *; try congruence.
    f_equal. by apply IH.
Qed.

Lemma all_equal_NoDup {A} (k : list A) :
  NoDup k → (∀ x y, x ∈ k → y ∈ k → x = y) → (length k ≤ 1)%nat.
Proof.
  intros Hnd Heq. destruct k as [|a [|b k]]; simpl; [lia|lia|].
  exfalso. apply NoDup_cons in Hnd as [Hnotin _]. apply Hnotin.
  rewrite (Heq a b); [left|left|right; left].
Qed.

(** While [startSession] was called at most once for a call, at most one
    suspended call was made for it. *)
Lemma single_flight_per_call v e es id :
  (length (starts_of id es) ≤ 1)%nat →
  (length (inflight_for (exec v (start e) es) id) ≤ 1)%nat.
Proof.
  intros Hone. set (c := exec v (start e) es).
  destruct (registered_exec v e es) as (Hcalls & Htasks & _).
  destruct (single_flight_exec v (start e) es (single_flight_start e))
    as [_ Hnd].
  fold c in Hcalls, Htasks, Hnd.
  rewrite <- (length_fmap session). apply all_equal_NoDup.
  - eapply sublist_NoDup; [exact Hnd|].
    apply fmap_sublist, sublist_filter.
  - assert (Hpos : ∀ x, x ∈ session <$> inflight_for c id →
                     (call <$> objects (state c)) !! x = Some id).
    { intros x (t & -> & Ht)%list_elem_of_fmap.
      apply list_elem_of_filter in Ht as [Hid Ht].
      destruct (Htasks t Ht) as (s & Hs & Hc).
      rewrite list_lookup_fmap, Hs. simpl. congruence. }
    intros x y Hx%Hpos Hy%Hpos.
    eapply (only_one_position id); [|done..].
    by rewrite Hcalls.
Qed.

End Registered.

(** ** C1: fragments dropped at the first guard *)

(** C1 (as the code has it).  At any point of any execution of the service,
    in either copy: when [callId] has no session, or its session has
    [isProcessing] set, a call of [processTranscription] returns at once and
    changes nothing: the registry, every session object (so its
    [conversationHistory] and [audioResponses]) and the set of suspended calls
    stay as they were, so the fragment is not queued.  And no session object
    is ever held by more than one suspended call: at most one generation cycle
    is in flight per session object, hence at most one per [callId] as long
    as [startSession] was called at most once for it. *)
Theorem C1_dropped_fragment_and_single_flight_per_session
    (v : Variant) (e : ProcessEnv) (es : list Event)
    (id txt spk : string) :
  let c := exec v (start e) es in
  ((sessions (state c) !! id = None ∨
    ∃ l s, sessions (state c) !! id = Some l ∧
           objects (state c) !! l = Some s ∧ isProcessing s = true) →
   step v c (ProcessTranscription id txt spk) = c) ∧
  (∀ l, (length (inflight_on c l) ≤ 1)%nat) ∧
  ((length (starts_of id es) ≤ 1)%nat →
   (length (inflight_for c id) ≤ 1)%nat).
Proof.
  intros c. split; [|split; [|apply single_flight_per_call]].
  - intros Hguard. simpl.
    assert (processTranscription_begin (state c) id txt spk = (state c, None))
      as ->.
    { destruct Hguard as [Hnone|(l & s & Hl & Hs & Hp)].
      - by apply begin_no_session, get_None.
      - eapply begin_busy; [|done]. by apply get_Some. }
    simpl. rewrite app_nil_r. by destruct c.
  - intros l. unfold inflight_on. apply at_most_one_with_key.
    apply (single_flight_exec v (start e) es (single_flight_start e)).
Qed.

Lemma C1_dropped_fragment_witness :
  let es := [StartSession "call-1" "agent-x" "Be concise.";
             ProcessTranscription "call-1" "What's the weather?" "user-1"] in
  let c := exec Durable (start env_text_only) es in
  step Durable c (ProcessTranscription "call-1" "And tomorrow?" "user-1") = c ∧
  (length (inflight_for c "call-1") ≤ 1)%nat.
Proof.
  intros es c.
  pose proof (C1_dropped_fragment_and_single_flight_per_session
                Durable env_text_only es "call-1" "And tomorrow?" "user-1")
    as (Hdrop & _ & Hone).
  split.
  - apply Hdrop. right. eexists _, _. vm_compute. repeat split; reflexivity.
  - apply Hone. vm_compute. lia.
Defined.

(** C1 as stated fails for "per callId": when [startSession] is called again
    for a call whose cycle is still awaiting the model, the map holds a new
    object with a clear flag, and the next fragment starts a second cycle for
    the same [callId]. *)
Lemma C1_two_cycles_in_flight_for_one_callId :
  ¬ (∀ (v : Variant) (e : ProcessEnv) (es : list Event) (id : string),
       (length (inflight_for (exec v (start e) es) id) ≤ 1)%nat).
Proof.
  intros H.
  specialize (H Durable env_text_only
                [StartSession "call-1" "agent-x" "Be concise.";
                 ProcessTranscription "call-1" "Hello" "user-1";
                 StartSession "call-1" "agent-x" "Be concise.";
                 ProcessTranscription "call-1" "Are you there?" "user-1"]
                "call-1").
  vm_compute in H. lia.
Qed.

(** ** One accepted turn, from the guards to the finally block *)

Section Turn.

Implicit Types (st : State) (l : nat) (s : GeminiVoiceSession) (t : Task).

Lemma alter_as_insert {A} (f : A → A) (os : list A) l (x : A) :
  os !! l = Some x → alter f l os = <[l := f x]> os.
Proof.
  intros H. apply list_eq. intros j.
  rewrite list_lookup_alter, list_lookup_insert.
  pose proof (lookup_lt_Some _ _ _ H).
  destruct (decide (l = j)) as [<-|].
  - rewrite decide_True, H by done. done.
  - by rewrite decide_False by tauto.
Qed.

(** The call, run alone, leaves the session object as [turn_outcome] says
    and touches nothing else in the registry. *)
Lemma processTranscription_accepted v st id txt spk b l s :
  get st id = Some (l, s) → isProcessing s = false → spk ≠ agentUserId s →
  objects (processTranscription v st id txt spk b) =
    <[l := turn_outcome v (env st) id txt b s]> (objects st) ∧
  sessions (processTranscription v st id txt spk b) = sessions st ∧
  env (processTranscription v st id txt spk b) = env st ∧
  disk (processTranscription v st id txt spk b) =
    match written_file v (env st) id b with
    | Some (name, bytes) => <[name := bytes]> (disk st)
    | None => disk st
    end.
Proof.
  intros Hg Hp Ha. pose proof (proj1 (get_Some _ _ _ _) Hg) as [_ Hs].
  apply String.eqb_neq in Ha.
  unfold processTranscription, processTranscription_begin.
  rewrite Hg, Hp, Ha.
  unfold max_awaits, turn_outcome, written_file, reply_of, speech_of.
  destruct v, (getGeminiClient (env st)) eqn:Hgem, (generated b) as [g|] eqn:Hgen,
    (getTTSClient (env st)) eqn:Htts, (synthesized b) as [[a|]|] eqn:Hsyn,
    (ensured b) eqn:Hens, (written b) eqn:Hwri;
    repeat (progress (simpl; rewrite ?Hgem, ?Hgen, ?Htts, ?Hsyn, ?Hens, ?Hwri)).
  all: split; [|done].
  all: rewrite ?list_alter_alter_eq, (alter_as_insert _ _ _ _ Hs).
  all: f_equal; unfold push_response, push_history, set_isProcessing; simpl.
  all: by rewrite <- ?app_assoc, ?app_nil_r.
Qed.

End Turn.

Section TurnFacts.

Implicit Types (st : State) (l : nat) (s : GeminiVoiceSession).

(** A call that stops at a guard, run alone, is the identity. *)
Lemma processTranscription_dropped v st id txt spk b :
  snd (processTranscription_begin st id txt spk) = None →
  processTranscription v st id txt spk b = st.
Proof.
  unfold processTranscription.
  destruct (processTranscription_begin st id txt spk) as [st1 [t|]] eqn:Hb;
    [done|]. intros _. by apply begin_dropped in Hb.
Qed.

Lemma processTranscription_lookup v st id txt spk b l s :
  get st id = Some (l, s) → isProcessing s = false → spk ≠ agentUserId s →
  get (processTranscription v st id txt spk b) id =
    Some (l, turn_outcome v (env st) id txt b s).
Proof.
  intros Hg Hp Ha.
  destruct (processTranscription_accepted v st id txt spk b l s Hg Hp Ha)
    as (Ho & Hs & _).
  apply get_Some in Hg as [Hl Hobj]. apply get_Some. rewrite Hs, Ho.
  split; [done|]. apply list_lookup_insert_eq. by eapply lookup_lt_Some.
Qed.

(** Whatever the stage and the state a suspended call is resumed in, it
    returns within [max_awaits] resumptions and clears the flag. *)
Lemma drive_releases v st (t : Task) b s :
  objects st !! session t = Some s →
  ∃ st' s', drive max_awaits v st t b = Some st' ∧
            objects st' !! session t = Some s' ∧ isProcessing s' = false.
Proof.
  intros Hs. destruct t as [l id txt g]. simpl in Hs. unfold max_awaits.
  destruct g as [[p|]|r [|]|r a|r a n], v,
    (generated b) as [g|] eqn:Hgen,
    (getTTSClient (env st)) eqn:Htts, (synthesized b) as [[a'|]|] eqn:Hsyn,
    (ensured b) eqn:Hens, (written b) eqn:Hwri;
    repeat (progress (simpl; rewrite ?Hgen, ?Htts, ?Hsyn, ?Hens, ?Hwri));
    eexists _, _; (split; [reflexivity|]); simpl;
    rewrite ?list_alter_alter_eq, list_lookup_alter_eq, Hs; done.
Qed.

End TurnFacts.

(** ** A call run alone is an execution of the interleaved service *)

Section Alone.

Implicit Types (st : State) (ts : list Task).

Lemma drive_is_an_execution fuel v b ts : ∀ st (t : Task) st',
  drive fuel v st t b = Some st' →
  exec v {| state := st; inflight := ts ++ [t] |}
    (schedule fuel v st t b (length ts))
  = {| state := st'; inflight := ts |}.
Proof.
  induction fuel as [|fuel IH]; intros st t st' Hd; [done|].
  simpl in *. rewrite list_lookup_middle by done.
  destruct (resume v st t (settle b (stage t)) (clock b))
    as [[st1 [t1|]]|]; [| |done].
  - rewrite insert_app_r_alt, Nat.sub_diag by done. simpl. by apply IH.
  - injection Hd as <-. simpl. by rewrite delete_middle, app_nil_r.
Qed.

(** [processTranscription], as used in the statements about one turn, is
    the call followed by the settlements of its own promises, with the
    suspended calls of other sessions left as they are. *)
Lemma exec_cons v (c : Config) e es :
  exec v c (e :: es) = exec v (step v c e) es.
Proof. done. Qed.

Lemma processTranscription_is_an_execution v st ts id txt spk b :
  ∃ es, exec v {| state := st; inflight := ts |}
          (ProcessTranscription id txt spk :: es)
        = {| state := processTranscription v st id txt spk b;
             inflight := ts |}.
Proof.
  unfold processTranscription.
  assert (step v {| state := st; inflight := ts |}
            (ProcessTranscription id txt spk) =
          {| state := fst (processTranscription_begin st id txt spk);
             inflight :=
               ts ++ option_list
                       (snd (processTranscription_begin st id txt spk)) |})
    as Hstep.
  { simpl. by destruct (processTranscription_begin st id txt spk). }
  destruct (processTranscription_begin st id txt spk) as [st1 [t|]] eqn:Hb.
  - pose proof (begin_accepted _ _ _ _ _ _ Hb)
      as (s & [_ Hs]%get_Some & _).
    destruct (begin_accepted_lookup _ _ _ _ _ _ _ Hb Hs) as (Hs1 & _).
    destruct (drive_releases v st1 t b _ Hs1) as (st' & _ & Hd & _).
    rewrite Hd. exists (schedule max_awaits v st1 t b (length ts)).
    rewrite exec_cons, Hstep. by apply drive_is_an_execution.
  - exists []. rewrite exec_cons, Hstep. simpl. by rewrite app_nil_r.
Qed.

End Alone.

(** ** C2: the finally block *)

(** C2.  In either copy, an invocation of [processTranscription] that gets
    past the guards sets [isProcessing] on its session object, and whatever
    the collaborators answer (generation raising, text-to-speech raising or
    answering without audio, the file system failing, or all going well) the
    invocation returns and the flag of that object is [false] afterwards. *)
Theorem C2_busy_flag_released
    (v : Variant) (st : State) (id txt spk : string) (b : Collaborators)
    (l : nat) (s : GeminiVoiceSession) :
  get st id = Some (l, s) → isProcessing s = false → spk ≠ agentUserId s →
  (∃ st1 t s1, processTranscription_begin st id txt spk = (st1, Some t) ∧
               session t = l ∧
               objects st1 !! l = Some s1 ∧ isProcessing s1 = true ∧
               drive max_awaits v st1 t b =
                 Some (processTranscription v st id txt spk b)) ∧
  ∃ s', get (processTranscription v st id txt spk b) id = Some (l, s') ∧
        isProcessing s' = false.
Proof.
  intros Hg Hp Ha. split.
  - destruct (processTranscription_begin st id txt spk) as [st1 [t|]] eqn:Hb.
    + pose proof (begin_accepted _ _ _ _ _ _ Hb) as (s0 & Hg0 & _).
      rewrite Hg in Hg0. injection Hg0 as -> <-.
      apply get_Some in Hg as [_ Hs].
      destruct (begin_accepted_lookup _ _ _ _ _ _ _ Hb Hs) as (Hs1 & _).
      destruct (drive_releases v st1 t b _ Hs1) as (st' & s' & Hd & _).
      exists st1, t. eexists. split; [done|]. split; [done|].
      split; [exact Hs1|]. split; [done|].
      unfold processTranscription. rewrite Hb, Hd. done.
    + exfalso. unfold processTranscription_begin in Hb.
      rewrite Hg, Hp in Hb. apply String.eqb_neq in Ha. rewrite Ha in Hb.
      done.
  - eexists. split; [by apply processTranscription_lookup|done].
Qed.

Lemma C2_busy_flag_released_witness :
  ∃ s', get (processTranscription Durable
               (startSession (initial env_with_tts) "call-1" "agent-x"
                  "Be concise.")
               "call-1" "What's the weather?" "user-1" no_audio_payload)
          "call-1" = Some (0%nat, s') ∧
        isProcessing s' = false.
Proof.
  refine (proj2 (C2_busy_flag_released Durable
                   (startSession (initial env_with_tts) "call-1" "agent-x"
                      "Be concise.")
                   "call-1" "What's the weather?" "user-1" no_audio_payload
                   0%nat _ _ _ _)).
  - vm_compute. reflexivity.
  - reflexivity.
  - simpl. discriminate.
Defined.

(** ** C3: the agent's own speech *)

Section Echo.

Implicit Types (c : Config) (st : State) (l : nat) (s : GeminiVoiceSession).

Lemma accepted_log_snoc v c es e :
  accepted_log v c (es ++ [e]) =
  accepted_log v c es ++ option_list (accepted (exec v c es) e).
Proof.
  revert c. induction es as [|e0 es IH]; intros c; simpl.
  - by rewrite app_nil_r.
  - by rewrite IH, app_assoc.
Qed.

Lemma attributed_start e : attributed (start e) [].
Proof. split; [constructor|]. intros l s Hs. by destruct l. Qed.

Lemma attributed_step v c log e :
  attributed c log →
  attributed (step v c e) (log ++ option_list (accepted c e)).
Proof.
  intros [Hbound Hobj].
  destruct e as [id a ins|id txt spk|id|i r clk]; simpl;
    rewrite ?app_nil_r.
  - (* a new object, with no turn and no accepted fragment *)
    split; simpl.
    + eapply Forall_impl; [exact Hbound|]. intros x Hx. simpl in Hx.
      rewrite length_app. simpl. lia.
    + intros l s Hs. apply lookup_app_Some in Hs as [Hs|[Hge Hs]].
      { by apply Hobj. }
      apply list_lookup_singleton_Some in Hs as [Hl <-]. simpl.
      assert (accepted_on l log = []) as ->; [|by split].
      unfold accepted_on.
      destruct (filter (λ x, acc_session x = l) log) as [|x k] eqn:E; [done|].
      assert (Hx : x ∈ filter (λ x, acc_session x = l) log)
        by (rewrite E; left).
      apply list_elem_of_filter in Hx as [Hxl Hx].
      rewrite Forall_forall in Hbound. specialize (Hbound x Hx). lia.
  - destruct (processTranscription_begin (state c) id txt spk)
      as [st [t|]] eqn:Hb; simpl.
    + pose proof (begin_accepted _ _ _ _ _ _ Hb)
        as (s0 & [_ Hs0]%get_Some & _ & Hspk & _ & _ & _ & _).
      destruct (begin_accepted_lookup _ _ _ _ _ _ _ Hb Hs0)
        as (Hnew & Hother & _).
      assert (Hlen : length (objects st) = length (objects (state c))).
      { apply begin_accepted in Hb as (? & _ & _ & _ & _ & _ & _ & ->).
        simpl. by rewrite !length_alter. }
      split; simpl.
      * rewrite Hlen. apply Forall_app. split; [done|].
        apply Forall_singleton. simpl. by eapply lookup_lt_Some.
      * intros l s Hs. unfold accepted_on. rewrite filter_app.
        destruct (decide (l = session t)) as [->|Hne].
        -- rewrite Hnew in Hs. injection Hs as <-. simpl.
           destruct (Hobj _ _ Hs0) as [Hu Hf].
           rewrite filter_cons_True, filter_nil by done.
           unfold user_turns in *. rewrite filter_app, fmap_app, Hu.
           split; [done|]. apply Forall_app. split; [done|].
           by apply Forall_singleton.
        -- rewrite Hother in Hs by done.
           rewrite filter_cons_False, filter_nil, app_nil_r by (simpl; congruence).
           by apply Hobj.
    + apply begin_dropped in Hb as ->. rewrite !app_nil_r. by split.
  - by split.
  - destruct (inflight c !! i) as [t|] eqn:Hi; [|by split].
    destruct (resume v (state c) t r clk) as [[st ot]|] eqn:Hr; [|by split].
    assert (attributed {| state := st; inflight := inflight c |} log) as HA.
    { split; simpl.
      - by rewrite (resume_length _ _ _ _ _ _ _ Hr).
      - intros l s' Hs'.
        destruct (objects (state c) !! l) as [s|] eqn:Hs.
        + destruct (resume_user_turns _ _ _ _ _ _ _ _ _ Hr Hs)
            as (s2 & Hs2 & Hag & _ & Hu).
          rewrite Hs' in Hs2. injection Hs2 as <-.
          rewrite Hu, Hag. by apply Hobj.
        + apply lookup_lt_Some in Hs'. apply lookup_ge_None in Hs.
          rewrite (resume_length _ _ _ _ _ _ _ Hr) in Hs'. lia. }
    by destruct ot.
Qed.

Lemma attributed_exec v e es :
  attributed (exec v (start e) es) (accepted_log v (start e) es).
Proof.
  induction es as [|x es IH] using rev_ind.
  - apply attributed_start.
  - unfold exec. rewrite foldl_snoc, accepted_log_snoc.
    by apply attributed_step.
Qed.

End Echo.

(** C3.  In either copy, at any point of any execution: a call of
    [processTranscription] whose [speakerId] is the session's [agentUserId]
    changes nothing (no session object, so no [conversationHistory] and no
    [audioResponses], and no suspended call is added).  Hence the user turns
    of a session's [conversationHistory] are exactly the fragments that
    passed the guards on that session, in order, and none of them was spoken
    by the session's agent. *)
Theorem C3_agent_speech_ignored
    (v : Variant) (e : ProcessEnv) (es : list Event)
    (id txt : string) (l : nat) (s : GeminiVoiceSession) :
  let c := exec v (start e) es in
  objects (state c) !! l = Some s →
  (sessions (state c) !! id = Some l →
   step v c (ProcessTranscription id txt (agentUserId s)) = c) ∧
  user_turns (conversationHistory s) =
    (λ a, user_turn (acc_text a)) <$>
      accepted_on l (accepted_log v (start e) es) ∧
  Forall (λ a, acc_speaker a ≠ agentUserId s)
    (accepted_on l (accepted_log v (start e) es)).
Proof.
  intros c Hs. split.
  - intros Hl. simpl.
    rewrite (begin_agent (state c) id txt l s); [|by apply get_Some].
    simpl. rewrite app_nil_r. by destruct c.
  - by apply (attributed_exec v e es).
Qed.

Lemma C3_agent_speech_ignored_witness :
  let c := exec Ephemeral (start env_text_only)
             [StartSession "call-1" "agent-x" "Be concise."] in
  step Ephemeral c (ProcessTranscription "call-1" "It's sunny." "agent-x") = c.
Proof.
  intros c.
  refine (proj1 (C3_agent_speech_ignored Ephemeral env_text_only
                   [StartSession "call-1" "agent-x" "Be concise."]
                   "call-1" "It's sunny." 0%nat
                   {| call := "call-1"; agentUserId := "agent-x";
                      instructions := "Be concise.";
                      conversationHistory := []; isProcessing := false;
                      audioResponses := [] |} _) _).
  - reflexivity.
  - vm_compute. reflexivity.
Defined.

(** ** C4: the generative model raises *)

(** Whatever ran in between: when the promise of the model rejects, the
    suspended call does nothing but run its [finally] block. *)
Lemma generate_rejected_only_releases
    (v : Variant) (st : State) (t : Task) (p : option string) (clk : Clock) :
  stage t = AwaitGenerate p →
  resume v st t Rejected clk = Some (release (session t) st, None).
Proof. unfold resume. intros ->. by destruct p. Qed.

(** C4.  In either copy, when an accepted turn's generation fails (no API key
    so that the client cannot be made, or the model call raises), the call
    returns with the error swallowed, and on its session object: the user
    turn of the fragment is the last entry of [conversationHistory], no
    assistant turn follows it, [audioResponses] is as it was, the flag is
    released; the registry is unchanged. *)
Theorem C4_generation_failure_keeps_user_turn
    (v : Variant) (st : State) (id txt spk : string) (b : Collaborators)
    (l : nat) (s : GeminiVoiceSession) :
  get st id = Some (l, s) → isProcessing s = false → spk ≠ agentUserId s →
  getGeminiClient (env st) = false ∨ generated b = None →
  ∃ s', get (processTranscription v st id txt spk b) id = Some (l, s') ∧
        conversationHistory s' = conversationHistory s ++ [user_turn txt] ∧
        audioResponses s' = audioResponses s ∧
        isProcessing s' = false ∧
        sessions (processTranscription v st id txt spk b) = sessions st.
Proof.
  intros Hg Hp Ha Hfail.
  destruct (processTranscription_accepted v st id txt spk b l s Hg Hp Ha)
    as (_ & Hsess & _).
  eexists. split; [by apply processTranscription_lookup|].
  assert (reply_of (env st) b = None) as Hr.
  { unfold reply_of. destruct Hfail as [-> | ->]; [done|].
    by destruct (getGeminiClient (env st)). }
  unfold turn_outcome. rewrite Hr. simpl. by rewrite app_nil_r.
Qed.

Lemma C4_generation_failure_witness :
  ∃ s', get (processTranscription Durable
               (startSession (initial env_with_tts) "call-1" "agent-x"
                  "Be concise.")
               "call-1" "What's the weather?" "user-1" generation_raises)
          "call-1" = Some (0%nat, s') ∧
        conversationHistory s' = [] ++ [user_turn "What's the weather?"] ∧
        audioResponses s' = [] ∧
        isProcessing s' = false ∧
        sessions (processTranscription Durable
                    (startSession (initial env_with_tts) "call-1" "agent-x"
                       "Be concise.")
                    "call-1" "What's the weather?" "user-1" generation_raises)
          = sessions (startSession (initial env_with_tts) "call-1" "agent-x"
                        "Be concise.").
Proof.
  refine (C4_generation_failure_keeps_user_turn Durable
            (startSession (initial env_with_tts) "call-1" "agent-x"
               "Be concise.")
            "call-1" "What's the weather?" "user-1" generation_raises
            0%nat
            {| call := "call-1"; agentUserId := "agent-x";
               instructions := "Be concise.";
               conversationHistory := []; isProcessing := false;
               audioResponses := [] |} _ _ _ _).
  - vm_compute. reflexivity.
  - reflexivity.
  - simpl. discriminate.
  - right. reflexivity.
Defined.

(** ** C5: text-to-speech answers without audio *)

(** Whatever ran in between: when text-to-speech raises or answers without
    audio, the suspended call does nothing but run its [finally] block. *)
Lemma speech_failure_only_releases
    (v : Variant) (st : State) (t : Task) (g : string) (r : Settled)
    (clk : Clock) :
  stage t = AwaitSpeech g true →
  r = Rejected ∨ r = SynthesizedSpeech None →
  resume v st t r clk = Some (release (session t) st, None).
Proof. unfold resume. by intros -> [-> | ->]. Qed.

(** C5 (as the code has it).  In either copy, when text-to-speech is
    configured and an accepted turn's generation succeeds but the speech
    client raises or answers without [audioContent], [textToSpeech] throws
    outside the inner [try]: the turn ends in the outer [catch].  The call
    returns, the user turn and the assistant turn are in
    [conversationHistory], the flag is released, and no entry is added to
    [audioResponses]. *)
Theorem C5_synthesis_failure_records_nothing
    (v : Variant) (st : State) (id txt spk : string) (b : Collaborators)
    (l : nat) (s : GeminiVoiceSession) (g : string) :
  get st id = Some (l, s) → isProcessing s = false → spk ≠ agentUserId s →
  getGeminiClient (env st) = true → generated b = Some g →
  getTTSClient (env st) = true →
  synthesized b = Some None ∨ synthesized b = None →
  ∃ s', get (processTranscription v st id txt spk b) id = Some (l, s') ∧
        conversationHistory s' =
          conversationHistory s ++
            [user_turn txt; assistant_turn (text_or_fallback g)] ∧
        audioResponses s' = audioResponses s ∧
        isProcessing s' = false.
Proof.
  intros Hg Hp Ha Hgem Hgen Htts Hsyn.
  eexists. split; [by apply processTranscription_lookup|].
  unfold turn_outcome, reply_of, speech_of. rewrite Hgem, Hgen, Htts. simpl.
  destruct Hsyn as [-> | ->]; by rewrite app_nil_r.
Qed.

Lemma C5_synthesis_failure_witness :
  ∃ s', get (processTranscription Durable
               (startSession (initial env_with_tts) "call-1" "agent-x"
                  "Be concise.")
               "call-1" "What's the weather?" "user-1" no_audio_payload)
          "call-1" = Some (0%nat, s') ∧
        conversationHistory s' =
          [] ++ [user_turn "What's the weather?";
                 assistant_turn (text_or_fallback "It's sunny.")] ∧
        audioResponses s' = [] ∧
        isProcessing s' = false.
Proof.
  refine (C5_synthesis_failure_records_nothing Durable
            (startSession (initial env_with_tts) "call-1" "agent-x"
               "Be concise.")
            "call-1" "What's the weather?" "user-1" no_audio_payload
            0%nat
            {| call := "call-1"; agentUserId := "agent-x";
               instructions := "Be concise.";
               conversationHistory := []; isProcessing := false;
               audioResponses := [] |} "It's sunny." _ _ _ _ _ _ _).
  - vm_compute. reflexivity.
  - reflexivity.
  - simpl. discriminate.
  - reflexivity.
  - reflexivity.
  - reflexivity.
  - left. reflexivity.
Defined.

(** C5 as stated fails: with text-to-speech configured and an answer without
    audio, neither copy records an entry for the turn. *)
Lemma C5_no_text_only_entry_after_synthesis_failure :
  getAudioResponses
    (serve_all Durable (initial env_with_tts)
       [ReqStart "call-1" "agent-x" "Be concise.";
        ReqProcess "call-1" "What's the weather?" "user-1" no_audio_payload])
    "call-1" = [] ∧
  getAudioResponses
    (serve_all Ephemeral (initial env_with_tts)
       [ReqStart "call-1" "agent-x" "Be concise.";
        ReqProcess "call-1" "What's the weather?" "user-1" no_audio_payload])
    "call-1" = [].
Proof. split; vm_compute; reflexivity. Qed.

(** ** C6: text-to-speech not configured *)

Section TextOnly.

Implicit Types (st : State) (l : nat) (s : GeminiVoiceSession).

(** [textToSpeech] returns null exactly when neither variable is set. *)
Lemma getTTSClient_unconfigured (e : ProcessEnv) :
  getTTSClient e = false ↔
  truthy_opt (GOOGLE_CLOUD_KEYFILE e) = false ∧
  truthy_opt (GOOGLE_CLOUD_PROJECT_ID e) = false.
Proof.
  unfold getTTSClient.
  destruct (truthy_opt (GOOGLE_CLOUD_KEYFILE e)),
    (truthy_opt (GOOGLE_CLOUD_PROJECT_ID e)); simpl; intuition congruence.
Qed.

Lemma unconfigured_speech_is_null (e : ProcessEnv) b :
  getTTSClient e = false → speech_of e b = Some None.
Proof. unfold speech_of. by intros ->. Qed.

(** The copy that writes files does what C6 says. *)
Lemma text_only_entry_durable st id txt spk b l s g :
  get st id = Some (l, s) → isProcessing s = false → spk ≠ agentUserId s →
  getGeminiClient (env st) = true → generated b = Some g →
  getTTSClient (env st) = false →
  ∃ s', get (processTranscription Durable st id txt spk b) id
          = Some (l, s') ∧
        audioResponses s' =
          audioResponses s ++
            [ {| text := text_or_fallback g; audioUrl := "";
                 timestamp := new_Date (clock b) |} ] ∧
        isProcessing s' = false.
Proof.
  intros Hg Hp Ha Hgem Hgen Htts.
  eexists. split; [by apply processTranscription_lookup|].
  unfold turn_outcome, reply_of, speech_of. rewrite Hgem, Hgen, Htts. done.
Qed.

(** The other copy names a file in every entry, audio or not. *)
Lemma text_only_entry_ephemeral st id txt spk b l s g :
  get st id = Some (l, s) → isProcessing s = false → spk ≠ agentUserId s →
  getGeminiClient (env st) = true → generated b = Some g →
  getTTSClient (env st) = false →
  ∃ s', get (processTranscription Ephemeral st id txt spk b) id
          = Some (l, s') ∧
        audioResponses s' =
          audioResponses s ++
            [ {| text := text_or_fallback g;
                 audioUrl := "/audio-responses/" +:+ id +:+ "-" +:+
                             pretty (Date_now (clock b)) +:+ ".wav";
                 timestamp := new_Date (clock b) |} ] ∧
        isProcessing s' = false.
Proof.
  intros Hg Hp Ha Hgem Hgen Htts.
  eexists. split; [by apply processTranscription_lookup|].
  unfold turn_outcome, reply_of, speech_of. rewrite Hgem, Hgen, Htts. done.
Qed.

End TextOnly.

(** C6 on the copy without file writes: text-to-speech is not configured,
    the turn is accepted and generation succeeds; the entry that is recorded
    carries the generated text and a non-empty [audioUrl], the name of a file
    that was never written.  (The other copy records the empty locator, see
    [text_only_entry_durable].) *)
Theorem C6_ephemeral_records_a_locator_without_audio :
  let st := serve_all Ephemeral (initial env_text_only)
              [ReqStart "call-1" "agent-x" "Be concise.";
               ReqProcess "call-1" "What's the weather?" "user-1" sunny] in
  getAudioResponses st "call-1" =
    [ {| text := "It's sunny.";
         audioUrl := "/audio-responses/call-1-1700000000000.wav";
         timestamp := 1700000000001 |} ] ∧
  disk st = ∅ ∧
  getAudioResponses
    (serve_all Durable (initial env_text_only)
       [ReqStart "call-1" "agent-x" "Be concise.";
        ReqProcess "call-1" "What's the weather?" "user-1" sunny]) "call-1" =
    [ {| text := "It's sunny."; audioUrl := "";
         timestamp := 1700000000001 |} ].
Proof. vm_compute. repeat split; reflexivity. Qed.

(** ** C7: the history of a fresh session *)

Section History.

Implicit Types (st : State) (l : nat) (s : GeminiVoiceSession).

Lemma ingest_history v id st c l s :
  get st id = Some (l, s) → isProcessing s = false →
  ∃ s', get (ingest v id st c) id = Some (l, s') ∧
        isProcessing s' = false ∧
        agentUserId s' = agentUserId s ∧
        conversationHistory s' =
          conversationHistory s ++ contribution (env st) (agentUserId s) c ∧
        env (ingest v id st c) = env st.
Proof.
  intros Hg Hp. unfold ingest, contribution.
  destruct (String.eqb (in_speaker c) (agentUserId s)) eqn:Ha.
  - apply String.eqb_eq in Ha.
    rewrite processTranscription_dropped.
    + exists s. by rewrite app_nil_r.
    + rewrite Ha. by rewrite (begin_agent st id _ l s).
  - apply String.eqb_neq in Ha.
    destruct (processTranscription_accepted v st id (in_text c)
                (in_speaker c) (in_answers c) l s Hg Hp Ha)
      as (_ & _ & He & _).
    eexists. split; [by apply processTranscription_lookup|].
    by repeat split.
Qed.

Lemma ingest_all_history v id calls : ∀ st l s,
  get st id = Some (l, s) → isProcessing s = false →
  ∃ s', get (ingest_all v id st calls) id = Some (l, s') ∧
        isProcessing s' = false ∧
        conversationHistory s' =
          conversationHistory s ++
            concat (contribution (env st) (agentUserId s) <$> calls).
Proof.
  induction calls as [|c calls IH]; intros st l s Hg Hp; simpl.
  - exists s. by rewrite app_nil_r.
  - destruct (ingest_history v id st c l s Hg Hp)
      as (s1 & Hg1 & Hp1 & Ha1 & Hh1 & He1).
    destruct (IH _ _ _ Hg1 Hp1) as (s2 & Hg2 & Hp2 & Hh2).
    exists s2. split; [done|]. split; [done|].
    by rewrite Hh2, Hh1, He1, Ha1, app_assoc.
Qed.

Lemma contributions_length e agent calls :
  length (concat (contribution e agent <$> calls)) =
  (2 * count (successful e agent) calls + count (failed e agent) calls)%nat.
Proof.
  unfold count. induction calls as [|c calls IH]; [done|].
  csimpl. rewrite length_app, IH.
  unfold contribution, successful, failed.
  destruct (String.eqb (in_speaker c) agent); simpl; [lia|].
  destruct (reply_of e (in_answers c)) as [r|]; simpl; lia.
Qed.

End History.

(** A fresh session served by a caller that awaits every call: its history
    is, in call order, what each call contributes. *)
Lemma fresh_session_history
    (v : Variant) (st0 : State) (id agent instr : string)
    (calls : list Ingest) :
  ∃ s, get (ingest_all v id (startSession st0 id agent instr) calls) id
         = Some (length (objects st0), s) ∧
       conversationHistory s =
         concat (contribution (env st0) agent <$> calls) ∧
       length (conversationHistory s) =
         (2 * count (successful (env st0) agent) calls
          + count (failed (env st0) agent) calls)%nat.
Proof.
  destruct (ingest_all_history v id calls (startSession st0 id agent instr)
              (length (objects st0))
              {| call := id; agentUserId := agent; instructions := instr;
                 conversationHistory := []; isProcessing := false;
                 audioResponses := [] |}) as (s & Hg & _ & Hh).
  - apply get_Some. simpl. split.
    + apply lookup_insert_eq.
    + rewrite lookup_app_r by done. by rewrite Nat.sub_diag.
  - done.
  - simpl in Hh. exists s. split; [done|]. split; [done|].
    rewrite Hh. apply contributions_length.
Qed.

Section Turns.

Implicit Types (c : Config) (st : State) (t : Task) (l : nat).

Lemma resume_history v st t r clk st' ot l s :
  resume v st t r clk = Some (st', ot) →
  objects st !! l = Some s →
  ∃ s', objects st' !! l = Some s' ∧
        conversationHistory s' =
          conversationHistory s ++
            (if decide (l = session t) then spoken t r else []).
Proof.
  intros H Hs. unfold spoken.
  destruct (decide (l = session t)) as [->|Hne].
  - resume_cases H;
      rewrite ?list_alter_alter_eq, ?list_lookup_alter_eq, ?Hs; simpl;
      eexists; (split; [reflexivity|]); simpl; by rewrite ?app_nil_r.
  - exists s. rewrite (resume_other _ _ _ _ _ _ _ _ H Hne).
    by rewrite app_nil_r.
Qed.

(** No call is resumed into awaiting the model again. *)
Lemma resume_past_generate v st t r clk st' t' p :
  resume v st t r clk = Some (st', Some t') → stage t' ≠ AwaitGenerate p.
Proof. intros H. resume_cases H; done. Qed.

Lemma resume_None_spoken v st t r clk :
  resume v st t r clk = None → spoken t r = [].
Proof.
  unfold resume, spoken. intros H.
  destruct (stage t) as [[?|]| | |], r; done.
Qed.

Lemma turns_on_snoc v l es e : ∀ c log,
  turns_on v l c log (es ++ [e]) =
  turns_step l (exec v c es) (turns_on v l c log es) e.
Proof. induction es as [|x es IH]; intros c log; simpl; [done|apply IH]. Qed.

Lemma concat_render_snoc (log : list Turn) (t : Turn) :
  concat (render <$> (log ++ [t])) = concat (render <$> log) ++ render t.
Proof. by rewrite fmap_app, concat_app; simpl; rewrite app_nil_r. Qed.

Lemma answer_last_turn (log0 : list Turn) (t0 : Turn) (r : string) :
  answer t0 = None →
  concat (render <$> alter (answered r) (pred (length (log0 ++ [t0])))
                       (log0 ++ [t0])) =
  concat (render <$> (log0 ++ [t0])) ++ [assistant_turn r].
Proof.
  intros Hopen. rewrite length_app. simpl.
  replace (pred (length log0 + 1)) with (length log0 + 0)%nat by lia.
  rewrite alter_app_r. simpl. rewrite !concat_render_snoc.
  unfold render, answered. simpl. rewrite Hopen. by rewrite <- app_assoc.
Qed.

Lemma turns_ok_start e l : turns_ok (start e) l [].
Proof. unfold turns_ok. simpl. by destruct l. Qed.

Lemma turns_ok_step v c l log e :
  single_flight c → turns_ok c l log →
  turns_ok (step v c e) l (turns_step l c log e).
Proof.
  intros [Hbusy Hnd] Hok. unfold turns_ok in *.
  destruct e as [id a ins|id txt spk|id|i r clk]; simpl.
  - (* startSession *)
    destruct (objects (state c) !! l) as [s|] eqn:Hs.
    + by rewrite (lookup_app_l_Some _ _ _ _ Hs).
    + subst log. apply lookup_ge_None in Hs.
      destruct (decide (l = length (objects (state c)))) as [->|Hne].
      * rewrite lookup_app_r by done. rewrite Nat.sub_diag. simpl.
        split; [done|]. intros t p Ht Hl _.
        destruct (Hbusy t Ht) as (s & Hs' & _).
        apply lookup_lt_Some in Hs'. lia.
      * rewrite lookup_ge_None_2; [done|]. rewrite length_app. simpl. lia.
  - destruct (processTranscription_begin (state c) id txt spk)
      as [st [t|]] eqn:Hb; simpl.
    + pose proof (begin_accepted _ _ _ _ _ _ Hb)
        as (s0 & [_ Hs0]%get_Some & _ & _ & _ & _ & _ & _).
      destruct (begin_accepted_lookup _ _ _ _ _ _ _ Hb Hs0)
        as (Hnew & Hother & _).
      destruct (decide (session t = l)) as [<-|Hne].
      * rewrite Hnew. rewrite Hs0 in Hok. destruct Hok as [Hh _]. simpl.
        split.
        -- rewrite concat_render_snoc, Hh. done.
        -- intros; eauto.
      * rewrite Hother by done.
        destruct (objects (state c) !! l) as [s|]; [|done].
        destruct Hok as [Hh Hopen]. split; [done|].
        intros t2 p [Ht2| ->%list_elem_of_singleton]%elem_of_app Hl Hst;
          [eauto|done].
    + apply begin_dropped in Hb as ->. by rewrite app_nil_r.
  - done.
  - destruct (inflight c !! i) as [t|] eqn:Hi; [|done].
    destruct (Hbusy t) as (s0 & Hs0 & _); [by eapply list_elem_of_lookup_2|].
    destruct (resume v (state c) t r clk) as [[st ot]|] eqn:Hr.
    2:{ rewrite (resume_None_spoken _ _ _ _ _ Hr). by destruct (decide _). }
    assert (Hrest : ∀ t2 p, t2 ∈ match ot with
                                 | Some t' => <[i := t']> (inflight c)
                                 | None => delete i (inflight c)
                                 end →
              session t2 = l → stage t2 = AwaitGenerate p →
              session t ≠ l ∧ t2 ∈ inflight c).
    { intros t2 p Ht2 Hl Hp. destruct ot as [t'|].
      - apply elem_of_insert_elsewhere in Ht2 as [->|(j & Hj & Ht2)].
        + by destruct (resume_past_generate _ _ _ _ _ _ _ p Hr).
        + split; [|by eapply list_elem_of_lookup_2].
          rewrite <- Hl. apply not_eq_sym. by eapply elsewhere_other_object.
      - apply elem_of_delete_elsewhere in Ht2 as (j & Hj & Ht2).
        split; [|by eapply list_elem_of_lookup_2].
        rewrite <- Hl. apply not_eq_sym. by eapply elsewhere_other_object. }
    assert (Hgoal :
      match objects st !! l with
      | Some s =>
          conversationHistory s =
            concat (render <$>
              (if decide (session t = l)
               then match spoken t r with
                    | m :: _ =>
                        alter (answered (content m)) (pred (length log)) log
                    | [] => log
                    end
               else log)) ∧
          ∀ t2 p, t2 ∈ match ot with
                       | Some t' => <[i := t']> (inflight c)
                       | None => delete i (inflight c)
                       end →
                  session t2 = l → stage t2 = AwaitGenerate p →
                  ∃ (log0 : list Turn) (t0 : Turn),
                    (if decide (session t = l)
                     then match spoken t r with
                          | m :: _ =>
                              alter (answered (content m))
                                (pred (length log)) log
                          | [] => log
                          end
                     else log) = log0 ++ [t0] ∧ answer t0 = None
      | None =>
          (if decide (session t = l)
           then match spoken t r with
                | m :: _ =>
                    alter (answered (content m)) (pred (length log)) log
                | [] => log
                end
           else log) = []
      end).
    { destruct (objects (state c) !! l) as [s|] eqn:Hs.
      - destruct (resume_history _ _ _ _ _ _ _ _ _ Hr Hs) as (s' & -> & Hh).
        destruct Hok as [Hhist Hopen].
        destruct (decide (session t = l)) as [<-|Hne].
        + rewrite decide_True in Hh by done. split.
          * rewrite Hh, Hhist. unfold spoken in *.
            destruct (stage t) as [[q|]| | |] eqn:Hstage, r;
              rewrite ?app_nil_r; try done.
            destruct (Hopen t (Some q)) as (log0 & t0 & -> & Hnone);
              [by eapply list_elem_of_lookup_2|done|done|].
            simpl. by rewrite answer_last_turn.
          * intros t2 p Ht2 Hl Hp.
            by destruct (Hrest t2 p Ht2 Hl Hp) as [? _].
        + rewrite decide_False, app_nil_r in Hh by congruence.
          split; [congruence|]. intros t2 p Ht2 Hl Hp.
          destruct (Hrest t2 p Ht2 Hl Hp) as [_ Hin]. eauto.
      - subst log. apply lookup_ge_None in Hs.
        rewrite <- (resume_length _ _ _ _ _ _ _ Hr) in Hs.
        apply lookup_ge_None in Hs. rewrite Hs.
        destruct (decide (session t = l)); [|done].
        by destruct (spoken t r). }
    by destruct ot.
Qed.

Lemma turns_ok_exec v e l es :
  turns_ok (exec v (start e) es) l (turns_on v l (start e) [] es).
Proof.
  induction es as [|x es IH] using rev_ind.
  - apply turns_ok_start.
  - rewrite turns_on_snoc. unfold exec at 1. rewrite foldl_snoc.
    apply turns_ok_step; [|done].
    apply single_flight_exec, single_flight_start.
Qed.

Lemma rendered_length (log : list Turn) :
  length (concat (render <$> log)) =
  (2 * count is_answered log
   + count (λ u : Turn, negb (is_answered u)) log)%nat.
Proof.
  unfold count. induction log as [|t log IH]; [done|].
  csimpl. rewrite length_app, IH. unfold render, is_answered.
  destruct (answer t); simpl; lia.
Qed.

End Turns.

(** C7 (as the code has it).  In either copy and in every execution, with
    calls interleaved at their awaits in any way: the [conversationHistory]
    of a session object, empty when [startSession] made it, is the
    concatenation, in the order the fragments passed the guards, of one user
    entry per accepted fragment, followed by one assistant entry when the
    model produced a text for that turn (and by nothing when generation
    failed or has not finished).  So with N turns answered and F accepted
    turns not answered it has exactly 2N + F entries. *)
Theorem C7_history_is_the_turns_in_order
    (v : Variant) (e : ProcessEnv) (es : list Event)
    (l : nat) (s : GeminiVoiceSession) :
  objects (state (exec v (start e) es)) !! l = Some s →
  conversationHistory s =
    concat (render <$> turns_on v l (start e) [] es) ∧
  length (conversationHistory s) =
    (2 * count is_answered (turns_on v l (start e) [] es)
     + count (λ t, negb (is_answered t)) (turns_on v l (start e) [] es))%nat.
Proof.
  intros Hs. pose proof (turns_ok_exec v e l es) as Hok.
  unfold turns_ok in Hok. rewrite Hs in Hok. destruct Hok as [Hh _].
  split; [done|]. rewrite Hh. apply rendered_length.
Qed.

Lemma C7_history_witness :
  let es := [StartSession "call-1" "agent-x" "Be concise.";
             ProcessTranscription "call-1" "What's the weather?" "user-1";
             ProcessTranscription "call-1" "Hello?" "user-2";
             Settle 0 (GeneratedText "It's sunny.") sample_clock;
             Settle 0 Done sample_clock;
             ProcessTranscription "call-1" "And tomorrow?" "user-1"] in
  ∃ s, objects (state (exec Durable (start env_text_only) es)) !! 0%nat
         = Some s ∧
       conversationHistory s =
         [user_turn "What's the weather?"; assistant_turn "It's sunny.";
          user_turn "And tomorrow?"] ∧
       turns_on Durable 0 (start env_text_only) [] es =
         [ {| said := "What's the weather?"; answer := Some "It's sunny." |};
           {| said := "And tomorrow?"; answer := None |} ].
Proof.
  intros es. eexists. split; [vm_compute; reflexivity|].
  split; [|vm_compute; reflexivity].
  refine (eq_trans
            (proj1 (C7_history_is_the_turns_in_order Durable env_text_only es
                      0%nat _ _)) _).
  - vm_compute. reflexivity.
  - vm_compute. reflexivity.
Defined.

(** C7 as stated fails: a turn whose generation raises is not dropped, and
    its user turn stays.  After one such turn and one that goes well the
    history has three entries, two user turns in a row; no N makes that 2N. *)
Lemma C7_failed_turn_leaves_a_single_user_entry :
  ∃ s, get (ingest_all Durable "call-1"
              (startSession (initial env_with_tts) "call-1" "agent-x"
                 "Be concise.")
              [ {| in_text := "Hello?"; in_speaker := "user-1";
                   in_answers := generation_raises |};
                {| in_text := "What's the weather?"; in_speaker := "user-1";
                   in_answers := sunny |} ]) "call-1" = Some (0%nat, s) ∧
       conversationHistory s =
         [user_turn "Hello?"; user_turn "What's the weather?";
          assistant_turn "It's sunny."] ∧
       ¬ ∃ N : nat, length (conversationHistory s) = (2 * N)%nat.
Proof.
  eexists. split; [vm_compute; reflexivity|].
  split; [reflexivity|]. simpl. intros [N HN]. lia.
Qed.

(** ** C8: the retrieval endpoint *)

Section Endpoint.

Lemma truthy_nonempty (s : string) : s ≠ "" → truthy s = true.
Proof.
  intros H. unfold truthy. apply negb_true_iff. by apply String.eqb_neq.
Qed.

Lemma getAudioResponses_no_session (st : State) (id : string) :
  sessions st !! id = None → getAudioResponses st id = [].
Proof. intros H. unfold getAudioResponses. by rewrite get_None. Qed.

Lemma toISOString_epoch :
  IsoDate.toISOString 0 = "1970-01-01T00:00:00.000Z".
Proof. vm_compute. reflexivity. Qed.

Lemma toISOString_sample :
  IsoDate.toISOString 1700000000001 = "2023-11-14T22:13:20.001Z".
Proof. vm_compute. reflexivity. Qed.

Lemma toISOString_leap_day :
  IsoDate.toISOString 951782400123 = "2000-02-29T00:00:00.123Z".
Proof. vm_compute. reflexivity. Qed.

Lemma toISOString_before_epoch :
  IsoDate.toISOString (-1) = "1969-12-31T23:59:59.999Z".
Proof. vm_compute. reflexivity. Qed.

End Endpoint.

(** C8.  For a request with a call identifier: when the call has no recorded
    response (no session, or a session with none yet) the endpoint answers
    [{ audioUrl: null, text: null }]; otherwise it answers with the last
    entry of the responses sequence, as [audioUrl], [text] and the timestamp
    in ISO 8601 form.  A request without identifier gets status 400, and a
    failure inside the handler status 500. *)
Theorem C8_retrieval_endpoint (st : State) (id : string) :
  id ≠ "" →
  (sessions st !! id = None →
   AudioApi.GET st (AudioApi.ParamsResolved (Some id)) = no_data) ∧
  (getAudioResponses st id = [] →
   AudioApi.GET st (AudioApi.ParamsResolved (Some id)) = no_data) ∧
  (∀ rs r, getAudioResponses st id = rs ++ [r] →
   AudioApi.GET st (AudioApi.ParamsResolved (Some id)) = latest_entry r) ∧
  AudioApi.status (AudioApi.GET st (AudioApi.ParamsResolved None)) = 400 ∧
  AudioApi.status (AudioApi.GET st (AudioApi.ParamsResolved (Some ""))) = 400 ∧
  AudioApi.status (AudioApi.GET st AudioApi.ParamsRejected) = 500.
Proof.
  intros Hid.
  assert (∀ rs, getAudioResponses st id = rs →
            AudioApi.GET st (AudioApi.ParamsResolved (Some id)) =
            match last rs with
            | None => no_data
            | Some r => latest_entry r
            end) as Hget.
  { intros rs <-. unfold AudioApi.GET. simpl.
    rewrite (truthy_nonempty id Hid). simpl.
    by destruct (last (getAudioResponses st id)). }
  repeat split.
  - intros Hnone. by rewrite (Hget [] (getAudioResponses_no_session _ _ Hnone)).
  - intros Hnil. by rewrite (Hget [] Hnil).
  - intros rs r Hrs. by rewrite (Hget _ Hrs), last_snoc.
Qed.

Lemma C8_retrieval_endpoint_witness :
  let started := startSession (initial env_with_tts) "call-1" "agent-x"
                   "Be concise." in
  let st := processTranscription Durable started "call-1"
              "What's the weather?" "user-1" sunny in
  AudioApi.GET st (AudioApi.ParamsResolved (Some "call-1")) =
    {| AudioApi.status := 200;
       AudioApi.body :=
         [("audioUrl",
           AudioApi.JString "/audio-responses/call-1-1700000000000.wav");
          ("text", AudioApi.JString "It's sunny.");
          ("timestamp", AudioApi.JString "2023-11-14T22:13:20.001Z")] |} ∧
  AudioApi.GET started (AudioApi.ParamsResolved (Some "call-1")) = no_data ∧
  AudioApi.GET st (AudioApi.ParamsResolved (Some "call-2")) = no_data.
Proof.
  intros started st.
  assert ("call-1" ≠ "") as Hid1 by discriminate.
  assert ("call-2" ≠ "") as Hid2 by discriminate.
  pose proof (C8_retrieval_endpoint st "call-1" Hid1) as (_ & _ & Hlast & _).
  pose proof (C8_retrieval_endpoint started "call-1" Hid1) as (_ & Hnil & _).
  pose proof (C8_retrieval_endpoint st "call-2" Hid2) as (Hnone & _).
  split; [|split].
  - rewrite (Hlast []
               {| text := "It's sunny.";
                  audioUrl := "/audio-responses/call-1-1700000000000.wav";
                  timestamp := 1700000000001 |});
      [|vm_compute; reflexivity].
    vm_compute. reflexivity.
  - apply Hnil. vm_compute. reflexivity.
  - apply Hnone. vm_compute. reflexivity.
Defined.

(** ** C9: the playback poller *)

Section Poller.

Import Player.

Variable resolve : string → string.

Implicit Types (p : Player) (es : list Event).

Lemma foldl_play l : ∀ p,
  played (foldl play p l) = played p ++ l ∧
  onEnded (foldl play p l) = onEnded p ∧
  lastPlayedUrlRef (foldl play p l) = lastPlayedUrlRef p ∧
  isPlayingRef (foldl play p l) = isPlayingRef p ∧
  src (foldl play p l) = from_option Some (src p) (srcUrl <$> last l).
Proof.
  induction l as [|s l IH]; intros p; simpl.
  - by rewrite app_nil_r.
  - destruct (IH (play p s)) as (-> & -> & -> & -> & ->). simpl.
    rewrite <- app_assoc. repeat split.
    destruct l as [|s' l']; [done|].
    change (last (s :: s' :: l')) with (last (s' :: l')).
    destruct (last (s' :: l')) as [x|] eqn:E; [done|].
    by apply last_None in E.
Qed.

(** At 'ended' every delayed swap is played, in registration order; the
    last one keeps the element. *)
Lemma ended_spec p :
  played (ended p) = played p ++ onEnded p ∧
  onEnded (ended p) = [] ∧
  lastPlayedUrlRef (ended p) = lastPlayedUrlRef p ∧
  isPlayingRef (ended p) = false ∧
  src (ended p) = from_option Some (src p) (srcUrl <$> last (onEnded p)).
Proof.
  unfold ended.
  match goal with
  | |- context [foldl play ?q _] =>
      destruct (foldl_play (onEnded p) q) as (-> & -> & -> & -> & ->)
  end.
  done.
Qed.

Lemma changes_snoc (l : list string) (x : string) :
  changes (l ++ [x]) =
  if bool_decide (last l = Some x) then changes l else changes l ++ [x].
Proof.
  induction l as [|a l IH]; [done|].
  destruct l as [|b l].
  - simpl. destruct (String.eqb_spec a x) as [->|Hne].
    + by rewrite bool_decide_true.
    + rewrite bool_decide_false by congruence. done.
  - change (changes ((a :: b :: l) ++ [x]))
      with (if String.eqb a b then changes ((b :: l) ++ [x])
            else a :: changes ((b :: l) ++ [x])).
    change (changes (a :: b :: l))
      with (if String.eqb a b then changes (b :: l)
            else a :: changes (b :: l)).
    change (last (a :: b :: l)) with (last (b :: l)).
    rewrite IH.
    by destruct (String.eqb a b), (bool_decide (last (b :: l) = Some x)).
Qed.

Lemma feed_snoc es e : feed (es ++ [e]) = feed es ++ option_list (fed e).
Proof. unfold feed. rewrite omap_app. simpl. by destruct (fed e). Qed.

(** Every locator played or held was delivered by the feed, once per
    change of the feed; the reference holds the last locator delivered. *)
Lemma run_taken es :
  taken (run resolve mounted es) ⊆+ changes (feed es) ∧
  lastPlayedUrlRef (run resolve mounted es) = last (feed es).
Proof.
  induction es as [|e es [IHt IHl]] using rev_ind; [done|].
  unfold run in *. rewrite foldl_snoc, feed_snoc.
  set (p := foldl (step resolve) mounted es) in *.
  destruct e as [f now| | | |]; simpl; rewrite ?app_nil_r; try done.
  - (* a tick of the interval *)
    destruct f as [| |[url|] txt]; simpl; rewrite ?app_nil_r; try done.
    destruct (truthy url) eqn:Ht; simpl; rewrite ?app_nil_r; [|done].
    rewrite changes_snoc, last_snoc, <- IHl.
    destruct (bool_decide (Some url = lastPlayedUrlRef p)) eqn:Hsame; simpl.
    + apply bool_decide_eq_true in Hsame.
      rewrite bool_decide_true by done. done.
    + apply bool_decide_eq_false in Hsame.
      rewrite bool_decide_false by congruence.
      destruct (String.eqb (audio_src resolve _) _); simpl.
      { split; [|done]. by apply submseteq_inserts_r. }
      destruct (isPlayingRef p); simpl; (split; [|done]);
        unfold taken in *; simpl.
      * rewrite app_assoc, fmap_app. by apply submseteq_skips_r.
      * rewrite fmap_app in IHt. rewrite !fmap_app, <- app_assoc. simpl.
        rewrite <- Permutation_middle, <- Permutation_cons_append.
        by apply submseteq_skip.
  - (* 'ended' *)
    destruct (ended_spec p) as (Hpl & Hon & Hlast & _).
    split; [|congruence].
    unfold taken in *. by rewrite Hpl, Hon, app_nil_r.
Qed.

Lemma NoDup_submseteq_l {A} (l k : list A) : NoDup k → l ⊆+ k → NoDup l.
Proof.
  intros Hk [k' Hp]%submseteq_Permutation. rewrite Hp in Hk.
  by apply NoDup_app in Hk as [? _].
Qed.

End Poller.

(** C9 (as the code has it).  The player compares a delivered locator with
    the last one it took, and with nothing else.  So
    - when the feed never returns to a locator it has left, no locator is
      played twice;
    - a tick that delivers the locator taken last does nothing;
    - a tick that comes while the playing flag is set leaves the audio
      element and what it plays untouched;
    - such a tick with a new locator registers the swap, and at the next
      'ended' the element is given the new source and played;
    - no event but 'ended' takes a registered swap off the element. *)
Theorem C9_poller_plays_each_change_once
    (resolve : string → string) (es : list Player.Event)
    (p : Player.Player) (url : string) (txt : option string) (now : Z) :
  let tick := Player.Poll (Player.Data (Some url) txt) now in
  let new := Player.make_source url now in
  (NoDup (Player.changes (Player.feed es)) →
   NoDup (Player.locator <$>
            Player.played (Player.run resolve Player.mounted es))) ∧
  (Player.lastPlayedUrlRef p = Some url → Player.step resolve p tick = p) ∧
  (Player.isPlayingRef p = true →
   Player.src (Player.step resolve p tick) = Player.src p ∧
   Player.played (Player.step resolve p tick) = Player.played p) ∧
  (Player.isPlayingRef p = true → url ≠ "" →
   Player.lastPlayedUrlRef p ≠ Some url →
   Player.audio_src resolve p ≠ Player.srcUrl new →
   Player.onEnded (Player.step resolve p tick) = Player.onEnded p ++ [new] ∧
   Player.played (Player.step resolve (Player.step resolve p tick)
                    Player.Ended)
     = Player.played p ++ Player.onEnded p ++ [new] ∧
   Player.src (Player.step resolve (Player.step resolve p tick) Player.Ended)
     = Some (Player.srcUrl new)) ∧
  (∀ e, e ≠ Player.Ended →
        ∃ k, Player.onEnded (Player.step resolve p e) = Player.onEnded p ++ k).
Proof.
  intros tick new. split; [|split; [|split; [|split]]].
  - intros Hnd. destruct (run_taken resolve es) as [Hsub _].
    pose proof (NoDup_submseteq_l _ _ Hnd Hsub) as Hk.
    unfold taken in Hk. rewrite fmap_app in Hk.
    by apply NoDup_app in Hk as [? _].
  - intros Hlast. simpl. rewrite Hlast.
    rewrite bool_decide_true by done. by rewrite andb_false_r.
  - intros Hplaying. simpl.
    destruct (truthy url
              && negb (bool_decide (Some url = Player.lastPlayedUrlRef p)));
      [|done].
    simpl. rewrite Hplaying.
    by destruct (String.eqb (Player.audio_src resolve _) _).
  - intros Hplaying Hurl Hnew Hsrc.
    assert (Player.step resolve p tick =
            {| Player.src := Player.src p;
               Player.lastPlayedUrlRef := Some url;
               Player.isPlayingRef := true;
               Player.onEnded := Player.onEnded p ++ [new];
               Player.played := Player.played p |}) as ->.
    { simpl. rewrite (truthy_nonempty url Hurl).
      rewrite bool_decide_false by congruence. simpl.
      apply String.eqb_neq in Hsrc. unfold new in Hsrc. simpl in Hsrc.
      unfold Player.audio_src in *. simpl. rewrite Hsrc. simpl.
      by rewrite Hplaying. }
    split; [done|]. simpl.
    pose proof (ended_spec
                  {| Player.src := Player.src p;
                     Player.lastPlayedUrlRef := Some url;
                     Player.isPlayingRef := true;
                     Player.onEnded := Player.onEnded p ++ [new];
                     Player.played := Player.played p |})
      as (Hpl & _ & _ & _ & Hs).
    simpl in Hpl, Hs. rewrite Hpl, Hs, last_snoc. done.
  - intros e He.
    destruct e as [f t| | | |]; simpl; try (by exists []; rewrite app_nil_r).
    destruct f as [| |[u|] ?]; simpl; try (by exists []; rewrite app_nil_r).
    destruct (truthy u
              && negb (bool_decide (Some u = Player.lastPlayedUrlRef p)));
      [|by exists []; rewrite app_nil_r].
    simpl. destruct (String.eqb (Player.audio_src resolve _) _); simpl;
      [by exists []; rewrite app_nil_r|].
    destruct (Player.isPlayingRef p); simpl; eauto.
    by exists []; rewrite app_nil_r.
Qed.

Lemma C9_poller_witness :
  let a := Player.Data (Some "/audio-responses/a.wav") (Some "A") in
  let b := Player.Data (Some "/audio-responses/b.wav") (Some "B") in
  let playing_a :=
    Player.run localhost Player.mounted [Player.Poll a 1000; Player.Playing] in
  NoDup (Player.locator <$>
           Player.played
             (Player.run localhost Player.mounted
                [Player.Poll a 1000; Player.Playing; Player.Poll a 2500;
                 Player.Poll b 4000; Player.Ended; Player.Poll b 5500])) ∧
  Player.step localhost playing_a (Player.Poll a 2500) = playing_a ∧
  Player.src (Player.step localhost playing_a (Player.Poll b 4000))
    = Player.src playing_a ∧
  Player.src (Player.step localhost
                (Player.step localhost playing_a (Player.Poll b 4000))
                Player.Ended)
    = Some "/audio-responses/b.wav?t=4000" ∧
  ∃ k, Player.onEnded (Player.step localhost playing_a Player.Pause)
       = Player.onEnded playing_a ++ k.
Proof.
  intros a b playing_a. split; [|split; [|split; [|split]]].
  - apply (C9_poller_plays_each_change_once localhost
             [Player.Poll a 1000; Player.Playing; Player.Poll a 2500;
              Player.Poll b 4000; Player.Ended; Player.Poll b 5500]
             Player.mounted "" None 0).
    apply (bool_decide_unpack _). vm_compute. exact I.
  - apply (C9_poller_plays_each_change_once localhost [] playing_a
             "/audio-responses/a.wav" (Some "A") 2500).
    vm_compute. reflexivity.
  - apply (C9_poller_plays_each_change_once localhost [] playing_a
             "/audio-responses/b.wav" (Some "B") 4000).
    vm_compute. reflexivity.
  - apply (C9_poller_plays_each_change_once localhost [] playing_a
             "/audio-responses/b.wav" (Some "B") 4000).
    + vm_compute. reflexivity.
    + discriminate.
    + vm_compute. discriminate.
    + vm_compute. discriminate.
  - apply (C9_poller_plays_each_change_once localhost [] playing_a
             "" None 0).
    discriminate.
Defined.

(** C9 as stated fails: the reference remembers one locator.  When the feed
    delivers A, then B, then A again, A is played a second time. *)
Lemma C9_locator_played_twice :
  ¬ (∀ (resolve : string → string) (es : list Player.Event),
       NoDup (Player.locator <$>
                Player.played (Player.run resolve Player.mounted es))).
Proof.
  intros H.
  specialize (H localhost
                [Player.Poll (Player.Data (Some "/audio-responses/a.wav")
                                (Some "A")) 1000;
                 Player.Playing; Player.Ended;
                 Player.Poll (Player.Data (Some "/audio-responses/b.wav")
                                (Some "B")) 2500;
                 Player.Playing; Player.Ended;
                 Player.Poll (Player.Data (Some "/audio-responses/a.wav")
                                (Some "A")) 4000]).
  vm_compute in H. apply NoDup_cons in H as [Hin _].
  apply Hin. set_solver.
Qed.

(** ** C10: the two copies *)

Section TwoCopies.

Implicit Types (a d st : State) (l : nat) (s : GeminiVoiceSession).









End TwoCopies.




(** * Further properties of the voice service *)

Section Lifetime.

Implicit Types (c : Config) (st : State) (l : nat) (s : GeminiVoiceSession).

Lemma grown_refl s : grown s s.
Proof. by repeat split. Qed.

Lemma grown_trans s1 s2 s3 : grown s1 s2 → grown s2 s3 → grown s1 s3.
Proof.
  intros (? & ? & ? & Hh & Hr) (? & ? & ? & Hh' & Hr').
  repeat split; try congruence; by etrans.
Qed.

Lemma resume_grown v st (t : Task) r clk st' ot l s :
  resume v st t r clk = Some (st', ot) →
  objects st !! l = Some s →
  ∃ s', objects st' !! l = Some s' ∧ grown s s'.
Proof.
  intros H Hs. destruct (decide (l = session t)) as [->|Hne].
  - resume_cases H;
      rewrite ?list_alter_alter_eq, ?list_lookup_alter_eq, ?Hs; simpl;
      eexists; (split; [reflexivity|]); unfold grown; simpl;
      repeat split; first [reflexivity | by eexists].
  - exists s. rewrite (resume_other _ _ _ _ _ _ _ _ H Hne).
    split; [done|apply grown_refl].
Qed.

Lemma step_grown v c e l s :
  objects (state c) !! l = Some s →
  ∃ s', objects (state (step v c e)) !! l = Some s' ∧ grown s s'.
Proof.
  intros Hs. destruct e as [id a ins|id txt spk|id|i r clk]; simpl.
  - exists s. split; [by apply lookup_app_l_Some|apply grown_refl].
  - destruct (processTranscription_begin (state c) id txt spk)
      as [st [t|]] eqn:Hb; simpl.
    + destruct (decide (l = session t)) as [->|Hne].
      * destruct (begin_accepted_lookup _ _ _ _ _ _ _ Hb Hs) as (Hnew & _).
        eexists. split; [exact Hnew|]. unfold grown. simpl.
        repeat split; first [reflexivity | by eexists].
      * pose proof (begin_accepted _ _ _ _ _ _ Hb)
          as (s0 & [_ Hs0]%get_Some & _).
        destruct (begin_accepted_lookup _ _ _ _ _ _ _ Hb Hs0)
          as (_ & Hother & _).
        exists s. rewrite Hother by done. split; [done|apply grown_refl].
    + apply begin_dropped in Hb as ->. exists s. split; [done|apply grown_refl].
  - exists s. split; [done|apply grown_refl].
  - destruct (inflight c !! i) as [t|];
      [|exists s; split; [done|apply grown_refl]].
    destruct (resume v (state c) t r clk) as [[st [t'|]]|] eqn:Hr; simpl;
      [by eapply resume_grown..|].
    exists s. split; [done|apply grown_refl].
Qed.

Lemma exec_grown v es : ∀ c l s,
  objects (state c) !! l = Some s →
  ∃ s', objects (state (exec v c es)) !! l = Some s' ∧ grown s s'.
Proof.
  induction es as [|e es IH]; intros c l s Hs; simpl.
  - exists s. split; [done|apply grown_refl].
  - destruct (step_grown v c e l s Hs) as (s1 & Hs1 & Hg1).
    destruct (IH _ _ _ Hs1) as (s2 & Hs2 & Hg2).
    exists s2. split; [done|by eapply grown_trans].
Qed.

(** The registry changes under [startSession] and [endSession] only. *)
Lemma step_sessions v c e id :
  started e ≠ Some id → e ≠ EndSession id →
  sessions (state (step v c e)) !! id = sessions (state c) !! id.
Proof.
  intros Hstart Hend. destruct e as [id0 a ins|id0 txt spk|id0|i r clk]; simpl.
  - simpl in Hstart. rewrite lookup_insert_ne; [done|congruence].
  - destruct (processTranscription_begin (state c) id0 txt spk)
      as [st [t|]] eqn:Hb; simpl.
    + apply begin_accepted in Hb as (? & _ & _ & _ & _ & _ & _ & ->). done.
    + by apply begin_dropped in Hb as ->.
  - rewrite lookup_delete_ne; [done|congruence].
  - destruct (inflight c !! i) as [t|]; [|done].
    destruct (resume v (state c) t r clk) as [[st [t'|]]|] eqn:Hr; simpl;
      [| |done]; by rewrite (proj1 (resume_sessions _ _ _ _ _ _ _ Hr)).
Qed.

Lemma ended_stays_ended v id es : ∀ c,
  sessions (state c) !! id = None →
  Forall (λ e, started e ≠ Some id) es →
  sessions (state (exec v c es)) !! id = None.
Proof.
  induction es as [|e es IH]; intros c Hnone Hes; [done|].
  apply Forall_cons in Hes as [He Hes]. simpl. apply IH; [|done].
  destruct e as [id0 a ins|id0 txt spk|id0|i r clk];
    try (by rewrite step_sessions).
  simpl. destruct (decide (id0 = id)) as [->|Hne].
  - apply lookup_delete_eq.
  - by rewrite lookup_delete_ne.
Qed.

End Lifetime.

(** X1.  After [endSession(id)], and until [startSession] is called for
    [id] again, whatever else happens (calls for other sessions, promises of
    calls made for [id] settling late): [hasSession(id)] is false, the
    responses of [id] read as empty and its latest locator as null, and
    [processTranscription] for [id] changes nothing. *)
Theorem X1_ended_session_stays_silent
    (v : Variant) (c : Config) (id : string) (es : list Event) :
  Forall (λ e, started e ≠ Some id) es →
  let c' := exec v (step v c (EndSession id)) es in
  hasSession (state c') id = false ∧
  getAudioResponses (state c') id = [] ∧
  getLatestAudioResponse (state c') id = None ∧
  ∀ txt spk, step v c' (ProcessTranscription id txt spk) = c'.
Proof.
  intros Hes c'.
  assert (sessions (state c') !! id = None) as Hnone.
  { apply ended_stays_ended; [|done]. simpl. apply lookup_delete_eq. }
  assert (get (state c') id = None) as Hget by by apply get_None.
  split; [|split; [|split]].
  - unfold hasSession. rewrite Hnone. apply bool_decide_eq_false.
    by intros [? ?].
  - unfold getAudioResponses. by rewrite Hget.
  - unfold getLatestAudioResponse. by rewrite Hget.
  - intros txt spk. simpl. rewrite begin_no_session by done.
    simpl. rewrite app_nil_r. by destruct c'.
Qed.

Lemma X1_ended_session_witness :
  let c := exec Durable (start env_text_only)
             [StartSession "call-1" "agent-x" "Be concise.";
              ProcessTranscription "call-1" "What's the weather?" "user-1"] in
  let c' := exec Durable (step Durable c (EndSession "call-1"))
              [Settle 0 (GeneratedText "It's sunny.") sample_clock;
               Settle 0 Done sample_clock;
               StartSession "call-2" "agent-x" "Be concise."] in
  getAudioResponses (state c') "call-1" = [] ∧
  (audioResponses <$> objects (state c') !! 0%nat) =
    Some [ {| text := "It's sunny."; audioUrl := "";
              timestamp := 1700000000001 |} ].
Proof.
  intros c c'. split.
  - apply (X1_ended_session_stays_silent Durable c "call-1"
             [Settle 0 (GeneratedText "It's sunny.") sample_clock;
              Settle 0 Done sample_clock;
              StartSession "call-2" "agent-x" "Be concise."]).
    repeat constructor; discriminate.
  - vm_compute. reflexivity.
Defined.

(** X3.  Along any execution a session object stays where it is and keeps
    its call, agent and instructions; its [conversationHistory] and its
    [audioResponses] are only appended to: what was there before is a prefix
    of what is there after. *)
Theorem X3_history_and_responses_are_append_only
    (v : Variant) (c : Config) (es : list Event)
    (l : nat) (s : GeminiVoiceSession) :
  objects (state c) !! l = Some s →
  ∃ s', objects (state (exec v c es)) !! l = Some s' ∧
        call s' = call s ∧ agentUserId s' = agentUserId s ∧
        instructions s' = instructions s ∧
        conversationHistory s `prefix_of` conversationHistory s' ∧
        audioResponses s `prefix_of` audioResponses s'.
Proof. apply exec_grown. Qed.

Lemma X3_append_only_witness :
  let c := exec Durable (start env_text_only)
             [StartSession "call-1" "agent-x" "Be concise.";
              ProcessTranscription "call-1" "What's the weather?" "user-1"] in
  ∃ s', objects (state (exec Durable c
                          [Settle 0 (GeneratedText "It's sunny.") sample_clock;
                           EndSession "call-1";
                           Settle 0 Done sample_clock])) !! 0%nat = Some s' ∧
        [user_turn "What's the weather?"] `prefix_of` conversationHistory s' ∧
        [] `prefix_of` audioResponses s'.
Proof.
  intros c.
  destruct (X3_history_and_responses_are_append_only Durable c
              [Settle 0 (GeneratedText "It's sunny.") sample_clock;
               EndSession "call-1";
               Settle 0 Done sample_clock]
              0%nat
              {| call := "call-1"; agentUserId := "agent-x";
                 instructions := "Be concise.";
                 conversationHistory := [user_turn "What's the weather?"];
                 isProcessing := true; audioResponses := [] |})
    as (s' & Hs' & _ & _ & _ & Hh & Hr).
  - vm_compute. reflexivity.
  - exists s'. by repeat split.
Defined.

(** X2.  Sessions share no state: at any point of any execution, an event
    about one call (an entry point called for it, or a promise of an
    invocation made for it settling) leaves the session of every other call
    as it is: same object, same history, same responses, same flag. *)
Theorem X2_sessions_are_independent
    (v : Variant) (e : ProcessEnv) (es : list Event) (ev : Event)
    (id' : string) :
  let c := exec v (start e) es in
  concerns c ev ≠ Some id' →
  get (state (step v c ev)) id' = get (state c) id'.
Proof.
  intros c Hev.
  destruct (registered_exec v e es) as (_ & Htasks & Hmap). fold c in Htasks, Hmap.
  assert (Hframe : ∀ st,
            sessions st !! id' = sessions (state c) !! id' →
            (∀ l s, sessions (state c) !! id' = Some l →
                    objects (state c) !! l = Some s →
                    objects st !! l = Some s) →
            get st id' = get (state c) id').
  { intros st Hs Ho. unfold get. rewrite Hs.
    destruct (sessions (state c) !! id') as [l|] eqn:Hl; [|done].
    destruct (Hmap _ _ Hl) as (s & Hobj & _).
    by rewrite Hobj, (Ho l s eq_refl Hobj). }
  destruct ev as [id a ins|id txt spk|id|i r clk]; simpl in Hev |- *.
  - apply Hframe; simpl.
    + rewrite lookup_insert_ne; [done|congruence].
    + intros l s _ Hs. by apply lookup_app_l_Some.
  - destruct (processTranscription_begin (state c) id txt spk)
      as [st [t|]] eqn:Hb; simpl.
    + pose proof (begin_accepted _ _ _ _ _ _ Hb)
        as (s0 & [Hreg Hs0]%get_Some & _).
      destruct (begin_accepted_lookup _ _ _ _ _ _ _ Hb Hs0)
        as (_ & Hother & Hsess).
      apply Hframe; [by rewrite Hsess|].
      intros l s Hl Hs. rewrite Hother; [done|]. intros ->.
      destruct (Hmap _ _ Hl) as (s1 & Hs1 & Hc1).
      destruct (Hmap _ _ Hreg) as (s2 & Hs2 & Hc2).
      congruence.
    + by apply begin_dropped in Hb as ->.
  - apply Hframe; simpl.
    + rewrite lookup_delete_ne; [done|congruence].
    + done.
  - destruct (inflight c !! i) as [t|] eqn:Hi; [|done].
    destruct (resume v (state c) t r clk) as [[st ot]|] eqn:Hr; [|done].
    assert (get st id' = get (state c) id') as Hst.
    { apply Hframe.
      - by rewrite (proj1 (resume_sessions _ _ _ _ _ _ _ Hr)).
      - intros l s Hl Hs.
        rewrite (resume_other _ _ _ _ _ _ _ _ Hr); [done|]. intros ->.
        destruct (Htasks t) as (s1 & Hs1 & Hc1);
          [by eapply list_elem_of_lookup_2|].
        destruct (Hmap _ _ Hl) as (s2 & Hs2 & Hc2).
        simpl in Hev. congruence. }
    by destruct ot.
Qed.

Lemma X2_sessions_are_independent_witness :
  let es := [StartSession "call-1" "agent-x" "Be concise.";
             StartSession "call-2" "agent-y" "Be kind.";
             ProcessTranscription "call-1" "What's the weather?" "user-1"] in
  let c := exec Durable (start env_text_only) es in
  get (state (step Durable c
                (Settle 0 (GeneratedText "It's sunny.") sample_clock)))
    "call-2" = get (state c) "call-2".
Proof.
  intros es c.
  apply (X2_sessions_are_independent Durable env_text_only es
           (Settle 0 (GeneratedText "It's sunny.") sample_clock) "call-2").
  vm_compute. discriminate.
Defined.

Section Recorded.

Implicit Types (c : Config) (st : State) (l : nat) (s : GeminiVoiceSession).

(** [generateGeminiResponse] never returns the empty string. *)
Lemma text_or_fallback_nonempty (g : string) : text_or_fallback g ≠ "".
Proof.
  unfold text_or_fallback, truthy.
  destruct (String.eqb g "") eqn:E; simpl; [done|].
  by apply String.eqb_neq in E.
Qed.

Lemma assistant_texts_user (h : list Message) (x : string) :
  assistant_texts (h ++ [user_turn x]) = assistant_texts h.
Proof.
  unfold assistant_texts. rewrite filter_app, filter_cons_False by done.
  by rewrite filter_nil, app_nil_r.
Qed.

Lemma assistant_texts_assistant (h : list Message) (g : string) :
  assistant_texts (h ++ [assistant_turn g]) = assistant_texts h ++ [g].
Proof.
  unfold assistant_texts. rewrite filter_app, filter_cons_True by done.
  by rewrite filter_nil, fmap_app.
Qed.

(** What one resumption does to the object it holds: it appends the
    generated utterance, or moves on with it, or records it, or only runs
    the finally block. *)
Lemma resume_shape v st (t : Task) r clk st' ot s :
  resume v st t r clk = Some (st', ot) →
  objects st !! session t = Some s →
  ∃ s', objects st' !! session t = Some s' ∧
    ((∃ g t', pending_reply (stage t) = None ∧ g ≠ "" ∧
              conversationHistory s' =
                conversationHistory s ++ [assistant_turn g] ∧
              audioResponses s' = audioResponses s ∧
              ot = Some t' ∧ pending_reply (stage t') = Some g) ∨
     (conversationHistory s' = conversationHistory s ∧
      audioResponses s' = audioResponses s ∧
      (ot = None ∨
       ∃ t' g, ot = Some t' ∧ pending_reply (stage t) = Some g ∧
               pending_reply (stage t') = Some g)) ∨
     (∃ g x, conversationHistory s' = conversationHistory s ∧
             pending_reply (stage t) = Some g ∧
             audioResponses s' = audioResponses s ++ [x] ∧ text x = g ∧
             ot = None)).
Proof.
  intros H Hs. pose proof text_or_fallback_nonempty as Hne.
  resume_cases H;
    rewrite ?list_alter_alter_eq, ?list_lookup_alter_eq, ?Hs; simpl;
    eexists; (split; [reflexivity|]); simpl;
    match goal with
    | |- context [_ ++ [assistant_turn _]] => idtac
    | |- _ => idtac
    end;
    first
      [ by right; left; repeat split; eauto 10
      | by right; right; eexists _, _; repeat split; eauto
      | left; eexists _, _; repeat split; eauto ].
Qed.

Lemma follow_start e : responses_follow_history (start e).
Proof. intros l s Hs. by destruct l. Qed.

Lemma follow_step v c e :
  single_flight c → responses_follow_history c →
  responses_follow_history (step v c e).
Proof.
  intros [Hbusy Hnd] Hinv.
  destruct e as [id a ins|id txt spk|id|i r clk]; simpl.
  - (* startSession *)
    intros l s Hs. simpl in Hs.
    apply lookup_app_Some in Hs as [Hs|[Hge Hs]]; [by apply Hinv|].
    apply list_lookup_singleton_Some in Hs as [Hl <-]. simpl.
    split; [apply sublist_nil_l|].
    intros t g Ht Hlt _. simpl in Ht.
    destruct (Hbusy t Ht) as (s & Hs' & _). apply lookup_lt_Some in Hs'. lia.
  - destruct (processTranscription_begin (state c) id txt spk)
      as [st [t|]] eqn:Hb; simpl.
    + pose proof (begin_accepted _ _ _ _ _ _ Hb)
        as (s0 & [_ Hs0]%get_Some & _ & _ & _ & _ & [p Hp] & _).
      destruct (begin_accepted_lookup _ _ _ _ _ _ _ Hb Hs0)
        as (Hnew & Hother & _).
      intros l s Hs. simpl in Hs |- *.
      destruct (decide (l = session t)) as [->|Hne].
      * rewrite Hnew in Hs. injection Hs as <-. simpl.
        rewrite assistant_texts_user.
        destruct (Hinv _ _ Hs0) as [Hsub Hpend]. split; [done|].
        intros t2 g [Ht2| ->%list_elem_of_singleton]%elem_of_app Hl Hg.
        -- by eapply Hpend.
        -- by rewrite Hp in Hg.
      * rewrite Hother in Hs by done.
        destruct (Hinv _ _ Hs) as [Hsub Hpend]. split; [done|].
        intros t2 g [Ht2| ->%list_elem_of_singleton]%elem_of_app Hl Hg.
        -- by eapply Hpend.
        -- done.
    + apply begin_dropped in Hb as ->. by rewrite app_nil_r.
  - done.
  - destruct (inflight c !! i) as [t|] eqn:Hi; [|done].
    destruct (Hbusy t) as (s0 & Hs0 & _); [by eapply list_elem_of_lookup_2|].
    destruct (resume v (state c) t r clk) as [[st ot]|] eqn:Hr; [|done].
    assert (Hin : t ∈ inflight c) by by eapply list_elem_of_lookup_2.
    assert (Hrest : ∀ t2, t2 ∈ match ot with
                               | Some t' => <[i := t']> (inflight c)
                               | None => delete i (inflight c)
                               end →
              (ot = Some t2 ∧ session t2 = session t) ∨
              (t2 ∈ inflight c ∧ session t2 ≠ session t)).
    { intros t2 Ht2. destruct ot as [t'|].
      - apply elem_of_insert_elsewhere in Ht2 as [->|(j & Hj & Ht2)].
        + left. split; [done|].
          by destruct (resume_continues _ _ _ _ _ _ _ _ Hr Hs0) as [? _].
        + right. split; [by eapply list_elem_of_lookup_2|].
          by eapply elsewhere_other_object.
      - apply elem_of_delete_elsewhere in Ht2 as (j & Hj & Ht2).
        right. split; [by eapply list_elem_of_lookup_2|].
        by eapply elsewhere_other_object. }
    assert (Hgoal : ∀ l s, objects st !! l = Some s →
      text <$> audioResponses s `sublist_of`
        assistant_texts (conversationHistory s) ∧
      ∀ t2 g, t2 ∈ match ot with
                   | Some t' => <[i := t']> (inflight c)
                   | None => delete i (inflight c)
                   end →
              session t2 = l → pending_reply (stage t2) = Some g →
              ∃ done, assistant_texts (conversationHistory s) = done ++ [g] ∧
                      text <$> audioResponses s `sublist_of` done).
    { intros l s Hs. destruct (decide (l = session t)) as [->|Hne].
      - destruct (Hinv _ _ Hs0) as [Hsub Hpend].
        destruct (resume_shape _ _ _ _ _ _ _ _ Hr Hs0) as (s' & Hs' & Hcase).
        rewrite Hs in Hs'. injection Hs' as <-.
        destruct Hcase as
          [(g & t' & Hnone & _ & Hh & Hresp & -> & Hg')
          |[(Hh & Hresp & Hot)|(g & x & Hh & Hg & Hresp & Hx & ->)]].
        + rewrite Hh, Hresp, assistant_texts_assistant.
          split; [by apply sublist_inserts_r|].
          intros t2 g2 Ht2 Hl Hg2.
          destruct (Hrest t2 Ht2) as [[[= <-] _]|[_ ?]]; [|done].
          exists (assistant_texts (conversationHistory s0)).
          split; [congruence|done].
        + rewrite Hh, Hresp. split; [done|].
          intros t2 g2 Ht2 Hl Hg2.
          destruct (Hrest t2 Ht2) as [[-> _]|[_ ?]]; [|done].
          destruct Hot as [[=]|(t' & g & [= <-] & Hg & Hg')].
          apply (Hpend t g2 Hin eq_refl). congruence.
        + destruct (Hpend t g Hin eq_refl Hg) as (done & Hdone & Hsub').
          rewrite Hh, Hresp, fmap_app, Hdone. simpl. rewrite Hx.
          split; [by apply sublist_app|].
          intros t2 g2 Ht2 Hl Hg2.
          by destruct (Hrest t2 Ht2) as [[[=] _]|[_ ?]].
      - rewrite (resume_other _ _ _ _ _ _ _ _ Hr Hne) in Hs.
        destruct (Hinv _ _ Hs) as [Hsub Hpend]. split; [done|].
        intros t2 g2 Ht2 Hl Hg2.
        destruct (Hrest t2 Ht2) as [[_ ?]|[? _]]; [congruence|].
        by eapply Hpend. }
    by destruct ot.
Qed.

Lemma follow_exec v e es :
  responses_follow_history (exec v (start e) es).
Proof.
  induction es as [|x es IH] using rev_ind; [apply follow_start|].
  unfold exec. rewrite foldl_snoc. apply follow_step; [|done].
  apply single_flight_exec, single_flight_start.
Qed.

(** Histories hold nothing but the turns the service pushes. *)
Lemma well_formed_step v c e :
  (∀ l s, objects (state c) !! l = Some s →
          Forall well_formed_turn (conversationHistory s)) →
  ∀ l s, objects (state (step v c e)) !! l = Some s →
         Forall well_formed_turn (conversationHistory s).
Proof.
  intros Hinv. destruct e as [id a ins|id txt spk|id|i r clk]; simpl.
  - intros l s Hs. apply lookup_app_Some in Hs as [Hs|[Hge Hs]]; [eauto|].
    apply list_lookup_singleton_Some in Hs as [_ <-]. constructor.
  - destruct (processTranscription_begin (state c) id txt spk)
      as [st [t|]] eqn:Hb; simpl.
    + pose proof (begin_accepted _ _ _ _ _ _ Hb)
        as (s0 & [_ Hs0]%get_Some & _).
      destruct (begin_accepted_lookup _ _ _ _ _ _ _ Hb Hs0)
        as (Hnew & Hother & _).
      intros l s Hs. destruct (decide (l = session t)) as [->|Hne].
      * rewrite Hnew in Hs. injection Hs as <-. simpl.
        apply Forall_app. split; [eauto|].
        apply Forall_singleton. by left.
      * rewrite Hother in Hs by done. eauto.
    + apply begin_dropped in Hb as ->. eauto.
  - eauto.
  - destruct (inflight c !! i) as [t|] eqn:Hi; [|eauto].
    destruct (resume v (state c) t r clk) as [[st ot]|] eqn:Hr; [|eauto].
    assert (∀ l s, objects st !! l = Some s →
              Forall well_formed_turn (conversationHistory s)) as Hgoal.
    { intros l s' Hs'.
      destruct (objects (state c) !! l) as [s|] eqn:Hs.
      - destruct (resume_history _ _ _ _ _ _ _ _ _ Hr Hs) as (s2 & Hs2 & Hh).
        rewrite Hs' in Hs2. injection Hs2 as <-. rewrite Hh.
        apply Forall_app. split; [eauto|].
        destruct (decide (l = session t)); [|constructor].
        unfold spoken. destruct (stage t) as [[?|]| | |], r; try constructor.
        + right. split; [done|apply text_or_fallback_nonempty].
        + constructor.
      - apply lookup_lt_Some in Hs'. apply lookup_ge_None in Hs.
        rewrite (resume_length _ _ _ _ _ _ _ Hr) in Hs'. lia. }
    by destruct ot.
Qed.

Lemma well_formed_exec v e es l s :
  objects (state (exec v (start e) es)) !! l = Some s →
  Forall well_formed_turn (conversationHistory s).
Proof.
  revert l s. induction es as [|x es IH] using rev_ind.
  - intros l s Hs. by destruct l.
  - unfold exec. rewrite foldl_snoc. by apply well_formed_step.
Qed.

End Recorded.

(** X4.  In every execution, the texts of a session's recorded responses are
    assistant turns of its [conversationHistory], in the same order: nothing
    is recorded that was not said, and nothing is recorded out of order or
    more often than it was said. *)
Theorem X4_recorded_texts_are_assistant_turns
    (v : Variant) (e : ProcessEnv) (es : list Event)
    (l : nat) (s : GeminiVoiceSession) :
  objects (state (exec v (start e) es)) !! l = Some s →
  text <$> audioResponses s `sublist_of`
    assistant_texts (conversationHistory s) ∧
  (length (audioResponses s)
   ≤ length (filter (λ m, role m = "assistant") (conversationHistory s)))%nat.
Proof.
  intros Hs. destruct (follow_exec v e es l s Hs) as [Hsub _].
  split; [done|].
  apply sublist_length in Hsub.
  unfold assistant_texts in Hsub. by rewrite !length_fmap in Hsub.
Qed.

Lemma X4_recorded_texts_witness :
  let es := [StartSession "call-1" "agent-x" "Be concise.";
             ProcessTranscription "call-1" "What's the weather?" "user-1";
             Settle 0 (GeneratedText "It's sunny.") sample_clock;
             Settle 0 (SynthesizedSpeech None) sample_clock;
             ProcessTranscription "call-1" "And tomorrow?" "user-1";
             Settle 0 (GeneratedText "Rain.") sample_clock;
             Settle 0 (SynthesizedSpeech (Some ten_bytes)) sample_clock] in
  ∃ s, objects (state (exec Ephemeral (start env_with_tts) es)) !! 0%nat
         = Some s ∧
       text <$> audioResponses s = ["Rain."] ∧
       assistant_texts (conversationHistory s) = ["It's sunny."; "Rain."] ∧
       text <$> audioResponses s `sublist_of`
         assistant_texts (conversationHistory s).
Proof.
  intros es. eexists. split; [vm_compute; reflexivity|].
  split; [reflexivity|]. split; [reflexivity|].
  refine (proj1 (X4_recorded_texts_are_assistant_turns Ephemeral env_with_tts
                   es 0%nat _ _)).
  vm_compute. reflexivity.
Defined.

(** X5.  In every execution, a [conversationHistory] holds only user turns
    and assistant turns, no assistant turn is empty (an empty answer of the
    model is replaced by the apology), and no recorded response has an empty
    text. *)
Theorem X5_no_empty_utterance
    (v : Variant) (e : ProcessEnv) (es : list Event)
    (l : nat) (s : GeminiVoiceSession) :
  objects (state (exec v (start e) es)) !! l = Some s →
  Forall (λ m, role m = "user" ∨ (role m = "assistant" ∧ content m ≠ ""))
    (conversationHistory s) ∧
  Forall (λ r, text r ≠ "") (audioResponses s).
Proof.
  intros Hs. pose proof (well_formed_exec v e es l s Hs) as Hwf.
  split.
  - eapply Forall_impl; [exact Hwf|]. intros m [->|[-> ?]]; [by left|by right].
  - destruct (follow_exec v e es l s Hs) as [Hsub _].
    apply Forall_forall. intros r Hr Hempty.
    assert (text r ∈ assistant_texts (conversationHistory s)) as Hin.
    { eapply elem_of_sublist; [|exact Hsub]. by apply list_elem_of_fmap_2. }
    apply list_elem_of_fmap in Hin as (m & Hm & Hin).
    apply list_elem_of_filter in Hin as [Hrole Hin].
    rewrite Forall_forall in Hwf.
    destruct (Hwf m Hin) as [Hu|[_ Hne]].
    + rewrite Hu in Hrole. done.
    + congruence.
Qed.

Lemma X5_no_empty_utterance_witness :
  let es := [StartSession "call-1" "agent-x" "Be concise.";
             ProcessTranscription "call-1" "What's the weather?" "user-1";
             Settle 0 (GeneratedText "") sample_clock;
             Settle 0 Done sample_clock] in
  ∃ s, objects (state (exec Durable (start env_text_only) es)) !! 0%nat
         = Some s ∧
       text <$> audioResponses s =
         ["I apologize, but I could not generate a response."] ∧
       Forall (λ r, text r ≠ "") (audioResponses s).
Proof.
  intros es. eexists. split; [vm_compute; reflexivity|].
  split; [reflexivity|].
  refine (proj2 (X5_no_empty_utterance Durable env_text_only es 0%nat _ _)).
  vm_compute. reflexivity.
Defined.

Section Disk.

Implicit Types (c : Config) (st : State) (l : nat) (s : GeminiVoiceSession).

Lemma located_mono (d d' : gmap string (list Byte.byte)) r :
  (∀ n, is_Some (d !! n) → is_Some (d' !! n)) → located d r → located d' r.
Proof. intros Hd [?|(n & ? & ?)]; [by left|right; eauto]. Qed.

(** A resumption of the copy that writes files never removes a file, and
    what it records is located on the disk it leaves. *)
Lemma resume_durable_located st (t : Task) r clk st' ot :
  resume Durable st t r clk = Some (st', ot) →
  (∀ n, is_Some (disk st !! n) → is_Some (disk st' !! n)) ∧
  ∀ l s, objects st !! l = Some s →
    ∃ s' k, objects st' !! l = Some s' ∧
            audioResponses s' = audioResponses s ++ k ∧
            Forall (located (disk st')) k.
Proof.
  intros H. split.
  - intros n Hn. resume_cases H; try done.
    rewrite lookup_insert_is_Some. destruct (decide (audioFileName = n)); eauto.
  - intros l s Hs. destruct (decide (l = session t)) as [->|Hne].
    + resume_cases H;
        rewrite ?list_alter_alter_eq, ?list_lookup_alter_eq, ?Hs; simpl;
        eexists _, _; (split; [reflexivity|]); simpl;
        first
          [ by split; [symmetry; apply app_nil_r|constructor]
          | split; [reflexivity|]; apply Forall_singleton;
            first [ by left
                  | right; eexists; split; [reflexivity|];
                    simpl; by rewrite lookup_insert_eq ] ].
    + exists s, []. rewrite (resume_other _ _ _ _ _ _ _ _ H Hne).
      by rewrite app_nil_r.
Qed.

Lemma located_step c e :
  (∀ l s, objects (state c) !! l = Some s →
          Forall (located (disk (state c))) (audioResponses s)) →
  ∀ l s, objects (state (step Durable c e)) !! l = Some s →
         Forall (located (disk (state (step Durable c e)))) (audioResponses s).
Proof.
  intros Hinv. destruct e as [id a ins|id txt spk|id|i r clk]; simpl.
  - intros l s Hs. apply lookup_app_Some in Hs as [Hs|[Hge Hs]]; [eauto|].
    apply list_lookup_singleton_Some in Hs as [_ <-]. constructor.
  - destruct (processTranscription_begin (state c) id txt spk)
      as [st [t|]] eqn:Hb; simpl.
    + pose proof (begin_accepted _ _ _ _ _ _ Hb)
        as (s0 & [_ Hs0]%get_Some & _ & _ & _ & _ & _ & Hst).
      destruct (begin_accepted_lookup _ _ _ _ _ _ _ Hb Hs0)
        as (Hnew & Hother & _).
      assert (disk st = disk (state c)) as -> by by rewrite Hst.
      intros l s Hs. destruct (decide (l = session t)) as [->|Hne].
      * rewrite Hnew in Hs. injection Hs as <-. simpl. eauto.
      * rewrite Hother in Hs by done. eauto.
    + apply begin_dropped in Hb as ->. eauto.
  - eauto.
  - destruct (inflight c !! i) as [t|] eqn:Hi; [|eauto].
    destruct (resume Durable (state c) t r clk) as [[st ot]|] eqn:Hr; [|eauto].
    destruct (resume_durable_located _ _ _ _ _ _ Hr) as [Hmono Hobj].
    assert (∀ l s, objects st !! l = Some s →
              Forall (located (disk st)) (audioResponses s)) as Hgoal.
    { intros l s' Hs'.
      destruct (objects (state c) !! l) as [s|] eqn:Hs.
      - destruct (Hobj _ _ Hs) as (s2 & k & Hs2 & Hk & Hloc).
        rewrite Hs' in Hs2. injection Hs2 as <-. rewrite Hk.
        apply Forall_app. split; [|done].
        eapply Forall_impl; [by eapply Hinv|].
        intros x. by apply located_mono.
      - apply lookup_lt_Some in Hs'. apply lookup_ge_None in Hs.
        rewrite (resume_length _ _ _ _ _ _ _ Hr) in Hs'. lia. }
    by destruct ot.
Qed.

Lemma located_exec e es l s :
  objects (state (exec Durable (start e) es)) !! l = Some s →
  Forall (located (disk (state (exec Durable (start e) es))))
    (audioResponses s).
Proof.
  revert l s. induction es as [|x es IH] using rev_ind.
  - intros l s Hs. by destruct l.
  - unfold exec in *. rewrite foldl_snoc. by apply located_step.
Qed.

Lemma nothing_saved_start e : nothing_saved (start e).
Proof.
  split; [done|]. split; [constructor|]. intros l s Hs. by destruct l.
Qed.

Lemma nothing_saved_step c e :
  nothing_saved c → nothing_saved (step Ephemeral c e).
Proof.
  intros (Hdisk & Hstages & Hresp).
  destruct e as [id a ins|id txt spk|id|i r clk]; simpl.
  - split; [done|]. split; [done|]. simpl.
    intros l s Hs. apply lookup_app_Some in Hs as [Hs|[Hge Hs]]; [eauto|].
    apply list_lookup_singleton_Some in Hs as [_ <-]. constructor.
  - destruct (processTranscription_begin (state c) id txt spk)
      as [st [t|]] eqn:Hb; simpl.
    + pose proof (begin_accepted _ _ _ _ _ _ Hb)
        as (s0 & [_ Hs0]%get_Some & _ & _ & _ & _ & [p Hp] & Hst).
      destruct (begin_accepted_lookup _ _ _ _ _ _ _ Hb Hs0)
        as (Hnew & Hother & _).
      split; [by rewrite Hst|]. split; simpl.
      * apply Forall_app. split; [done|].
        apply Forall_singleton. by rewrite Hp.
      * intros l s Hs. destruct (decide (l = session t)) as [->|Hne].
        -- rewrite Hnew in Hs. injection Hs as <-. simpl. eauto.
        -- rewrite Hother in Hs by done. eauto.
    + apply begin_dropped in Hb as ->. by rewrite app_nil_r.
  - done.
  - destruct (inflight c !! i) as [t|] eqn:Hi; [|done].
    assert (before_saving (stage t)) as Hearly.
    { rewrite Forall_forall in Hstages. apply Hstages.
      by eapply list_elem_of_lookup_2. }
    destruct (resume Ephemeral (state c) t r clk) as [[st ot]|] eqn:Hr;
      [|done].
    assert (disk st = ∅ ∧
            (∀ t', ot = Some t' → before_saving (stage t')) ∧
            ∀ l s, objects st !! l = Some s →
              Forall (λ r, ∃ name, audioUrl r = audio_url name)
                (audioResponses s)) as (Hd & Hst & Hobj).
    { split; [|split].
      - resume_cases Hr; done.
      - intros t' ->. resume_cases Hr; done.
      - intros l s' Hs'.
        destruct (objects (state c) !! l) as [s|] eqn:Hs.
        + pose proof (Hresp _ _ Hs) as Hold.
          destruct (decide (l = session t)) as [->|Hne].
          * resume_cases Hr;
              rewrite ?list_alter_alter_eq, ?list_lookup_alter_eq, ?Hs in Hs';
              simpl in Hs'; try (injection Hs' as <-); try done; simpl;
              (apply Forall_app; split; [done|]);
              apply Forall_singleton; by eexists.
          * by rewrite (resume_other _ _ _ _ _ _ _ _ Hr Hne), Hs in Hs';
              injection Hs' as <-.
        + apply lookup_lt_Some in Hs'. apply lookup_ge_None in Hs.
          rewrite (resume_length _ _ _ _ _ _ _ Hr) in Hs'. lia. }
    destruct ot as [t'|]; (split; [done|]); (split; [|done]); simpl.
    + apply Forall_insert; [done|]. by apply Hst.
    + by apply Forall_delete.
Qed.

Lemma nothing_saved_exec e es : nothing_saved (exec Ephemeral (start e) es).
Proof.
  induction es as [|x es IH] using rev_ind; [apply nothing_saved_start|].
  unfold exec in *. rewrite foldl_snoc. by apply nothing_saved_step.
Qed.

End Disk.

(** X6.  In every execution of the copy that writes files, each recorded
    response either has the empty locator or a locator
    [/audio-responses/<name>] whose file is on disk: what the endpoint hands
    out can be fetched. *)
Theorem X6_durable_locators_name_written_files
    (e : ProcessEnv) (es : list Event)
    (l : nat) (s : GeminiVoiceSession) (r : AudioResponse) :
  let c := exec Durable (start e) es in
  objects (state c) !! l = Some s → r ∈ audioResponses s →
  audioUrl r = "" ∨
  ∃ name, audioUrl r = "/audio-responses/" +:+ name ∧
          is_Some (disk (state c) !! name).
Proof.
  intros c Hs Hr. pose proof (located_exec e es l s Hs) as Hloc.
  rewrite Forall_forall in Hloc. exact (Hloc r Hr).
Qed.

Lemma X6_durable_locators_witness :
  let es := [StartSession "call-1" "agent-x" "Be concise.";
             ProcessTranscription "call-1" "What's the weather?" "user-1";
             Settle 0 (GeneratedText "It's sunny.") sample_clock;
             Settle 0 (SynthesizedSpeech (Some ten_bytes)) sample_clock;
             Settle 0 Done sample_clock;
             Settle 0 Done sample_clock] in
  let c := exec Durable (start env_with_tts) es in
  disk (state c) !! "call-1-1700000000000.wav" = Some ten_bytes ∧
  ("/audio-responses/call-1-1700000000000.wav" = "" ∨
   ∃ name, "/audio-responses/call-1-1700000000000.wav"
             = "/audio-responses/" +:+ name ∧
           is_Some (disk (state c) !! name)).
Proof.
  intros es c. split; [vm_compute; reflexivity|].
  refine (X6_durable_locators_name_written_files env_with_tts es 0%nat
            {| call := "call-1"; agentUserId := "agent-x";
               instructions := "Be concise.";
               conversationHistory :=
                 [user_turn "What's the weather?";
                  assistant_turn "It's sunny."];
               isProcessing := false;
               audioResponses :=
                 [ {| text := "It's sunny.";
                      audioUrl := "/audio-responses/call-1-1700000000000.wav";
                      timestamp := 1700000000001 |} ] |}
            {| text := "It's sunny.";
               audioUrl := "/audio-responses/call-1-1700000000000.wav";
               timestamp := 1700000000001 |} _ _).
  - vm_compute. reflexivity.
  - simpl. left.
Defined.

(** X7.  In every execution of the copy without file writes, the disk stays
    empty, and every recorded response carries a locator
    [/audio-responses/<name>], never the empty one: no locator it hands out
    names a file that exists. *)
Theorem X7_ephemeral_never_writes
    (e : ProcessEnv) (es : list Event)
    (l : nat) (s : GeminiVoiceSession) (r : AudioResponse) :
  let c := exec Ephemeral (start e) es in
  disk (state c) = ∅ ∧
  (objects (state c) !! l = Some s → r ∈ audioResponses s →
   audioUrl r ≠ "" ∧
   ∃ name, audioUrl r = "/audio-responses/" +:+ name ∧
           disk (state c) !! name = None).
Proof.
  intros c. destruct (nothing_saved_exec e es) as (Hdisk & _ & Hresp).
  fold c in Hdisk, Hresp. split; [done|].
  intros Hs Hr. specialize (Hresp l s Hs). rewrite Forall_forall in Hresp.
  destruct (Hresp r Hr) as (name & Hname). split.
  - rewrite Hname. discriminate.
  - exists name. split; [done|]. by rewrite Hdisk, lookup_empty.
Qed.

Lemma X7_ephemeral_never_writes_witness :
  let es := [StartSession "call-1" "agent-x" "Be concise.";
             ProcessTranscription "call-1" "What's the weather?" "user-1";
             Settle 0 (GeneratedText "It's sunny.") sample_clock;
             Settle 0 (SynthesizedSpeech (Some ten_bytes)) sample_clock] in
  let c := exec Ephemeral (start env_with_tts) es in
  ∃ name, "/audio-responses/call-1-1700000000000.wav"
            = "/audio-responses/" +:+ name ∧
          disk (state c) !! name = None.
Proof.
  intros es c.
  refine (proj2 (proj2 (X7_ephemeral_never_writes env_with_tts es 0%nat
            {| call := "call-1"; agentUserId := "agent-x";
               instructions := "Be concise.";
               conversationHistory :=
                 [user_turn "What's the weather?";
                  assistant_turn "It's sunny."];
               isProcessing := false;
               audioResponses :=
                 [ {| text := "It's sunny.";
                      audioUrl := "/audio-responses/call-1-1700000000000.wav";
                      timestamp := 1700000000001 |} ] |}
            {| text := "It's sunny.";
               audioUrl := "/audio-responses/call-1-1700000000000.wav";
               timestamp := 1700000000001 |}) _ _)).
  - vm_compute. reflexivity.
  - simpl. left.
Defined.

Section Prompt.

Implicit Types (c : Config) (st : State) (l : nat) (s : GeminiVoiceSession).

(** What an accepted call asks the model. *)
Lemma begin_prompt st id txt spk st' (t : Task) s :
  processTranscription_begin st id txt spk = (st', Some t) →
  objects st !! session t = Some s →
  transcriptionText t = txt ∧
  stage t = AwaitGenerate
              (if getGeminiClient (env st)
               then Some (build_prompt (instructions s)
                            (conversationHistory s ++ [user_turn txt]))
               else None).
Proof.
  unfold processTranscription_begin. intros H Hs.
  destruct (get st id) as [[l s0]|] eqn:Hg; [|by simplify_eq].
  apply get_Some in Hg as [_ Hs0].
  destruct (isProcessing s0); [by simplify_eq|].
  destruct (String.eqb spk (agentUserId s0)); [by simplify_eq|].
  simplify_eq; simpl in *. by simplify_eq.
Qed.

Lemma prompt_start e : prompt_is_current (start e).
Proof. intros t p s Ht. by apply elem_of_nil in Ht. Qed.

Lemma prompt_step v c e :
  single_flight c → prompt_is_current c → prompt_is_current (step v c e).
Proof.
  intros [Hbusy Hnd] Hinv.
  destruct e as [id a ins|id txt spk|id|i r clk]; simpl.
  - (* startSession *)
    intros t p s Ht Hp Hs. simpl in *.
    destruct (Hbusy t Ht) as (s0 & Hs0 & _).
    rewrite (lookup_app_l_Some _ _ _ _ Hs0) in Hs. injection Hs as <-.
    by eapply Hinv.
  - destruct (processTranscription_begin (state c) id txt spk)
      as [st [t|]] eqn:Hb; simpl.
    + pose proof (begin_accepted _ _ _ _ _ _ Hb)
        as (s0 & [_ Hs0]%get_Some & Hfree & _).
      destruct (begin_accepted_lookup _ _ _ _ _ _ _ Hb Hs0)
        as (Hnew & Hother & _).
      destruct (begin_prompt _ _ _ _ _ _ _ Hb Hs0) as [Htxt Hstage].
      intros t2 p s [Ht2| ->%list_elem_of_singleton]%elem_of_app Hp Hs;
        simpl in Hs.
      * destruct (Hbusy t2 Ht2) as (s2 & Hs2 & Hflag).
        assert (session t2 ≠ session t) as Hne by (intros Heq; congruence).
        rewrite Hother in Hs by done. by eapply Hinv.
      * rewrite Hnew in Hs. injection Hs as <-. simpl.
        rewrite Hstage in Hp. rewrite last_snoc, Htxt.
        destruct (getGeminiClient (env (state c))); by simplify_eq.
    + apply begin_dropped in Hb as ->. by rewrite app_nil_r.
  - done.
  - destruct (inflight c !! i) as [t|] eqn:Hi; [|done].
    destruct (Hbusy t) as (s0 & Hs0 & _); [by eapply list_elem_of_lookup_2|].
    destruct (resume v (state c) t r clk) as [[st ot]|] eqn:Hr; [|done].
    assert (Hgoal : ∀ t2 p s,
              t2 ∈ match ot with
                   | Some t' => <[i := t']> (inflight c)
                   | None => delete i (inflight c)
                   end →
              stage t2 = AwaitGenerate (Some p) →
              objects st !! session t2 = Some s →
              p = build_prompt (instructions s) (conversationHistory s) ∧
              last (conversationHistory s)
                = Some (user_turn (transcriptionText t2))).
    { intros t2 p s Ht2 Hp Hs.
      assert (∃ j, j ≠ i ∧ inflight c !! j = Some t2) as (j & Hj & Hjt).
      { destruct ot as [t'|].
        - apply elem_of_insert_elsewhere in Ht2 as [->|?]; [|done].
          by destruct (resume_past_generate _ _ _ _ _ _ _ (Some p) Hr).
        - by apply elem_of_delete_elsewhere in Ht2. }
      assert (session t2 ≠ session t) as Hne
        by by eapply elsewhere_other_object.
      rewrite (resume_other _ _ _ _ _ _ _ _ Hr Hne) in Hs.
      eapply Hinv; [by eapply list_elem_of_lookup_2|done..]. }
    by destruct ot.
Qed.

Lemma prompt_exec v e es : prompt_is_current (exec v (start e) es).
Proof.
  induction es as [|x es IH] using rev_ind; [apply prompt_start|].
  unfold exec. rewrite foldl_snoc. apply prompt_step; [|done].
  apply single_flight_exec, single_flight_start.
Qed.

End Prompt.

(** X8.  While a call awaits the generative model, in any interleaving with
    other calls, the prompt it sent is the one built from the instructions
    and the whole conversation of its session object as it is now, and that
    conversation ends with the fragment the call is answering: nothing is
    appended to a history behind the back of a pending generation. *)
Theorem X8_pending_prompt_is_the_current_conversation
    (v : Variant) (e : ProcessEnv) (es : list Event)
    (t : Task) (p : string) (s : GeminiVoiceSession) :
  let c := exec v (start e) es in
  t ∈ inflight c → stage t = AwaitGenerate (Some p) →
  objects (state c) !! session t = Some s →
  p = build_prompt (instructions s) (conversationHistory s) ∧
  last (conversationHistory s)
    = Some {| role := "user"; content := transcriptionText t |}.
Proof. intros c. apply (prompt_exec v e es). Qed.

Lemma X8_pending_prompt_witness :
  let es := [StartSession "call-1" "agent-x" "Be concise.";
             ProcessTranscription "call-1" "What's the weather?" "user-1"] in
  let s := {| call := "call-1"; agentUserId := "agent-x";
              instructions := "Be concise.";
              conversationHistory := [user_turn "What's the weather?"];
              isProcessing := true; audioResponses := [] |} in
  let p := build_prompt "Be concise." [user_turn "What's the weather?"] in
  p = build_prompt (instructions s) (conversationHistory s) ∧
  last (conversationHistory s)
    = Some {| role := "user"; content := "What's the weather?" |}.
Proof.
  intros es s p.
  refine (X8_pending_prompt_is_the_current_conversation Durable env_text_only
            es {| session := 0; callId := "call-1";
                  transcriptionText := "What's the weather?";
                  stage := AwaitGenerate (Some p) |} p s _ _ _).
  - vm_compute. left.
  - reflexivity.
  - vm_compute. reflexivity.
Defined.

(** * The player against the retrieval endpoint *)

Section Fetch.

Implicit Types (st : State) (p : Player.Player).

Lemma latest_of_responses st id :
  getLatestAudioResponse st id = audioUrl <$> last (getAudioResponses st id).
Proof.
  unfold getLatestAudioResponse, getAudioResponses.
  by destruct (get st id) as [[l s]|].
Qed.

(** What a tick of the player gets from the endpoint. *)
Lemma fetched_GET st params :
  fetched (AudioApi.GET st params) =
  match params with
  | AudioApi.ParamsResolved (Some id) =>
      if truthy id
      then Player.Data (getLatestAudioResponse st id)
                       (text <$> last (getAudioResponses st id))
      else Player.NotOk
  | _ => Player.NotOk
  end.
Proof.
  destruct params as [|[id|]]; [done| |done].
  rewrite latest_of_responses. unfold AudioApi.GET. simpl.
  destruct (truthy id); [|done]. simpl.
  by destruct (last (getAudioResponses st id)).
Qed.

End Fetch.

(** X9.  The body the endpoint answers with and the accessor
    [getLatestAudioResponse] agree: what a tick of the player reads as
    [data.audioUrl] is what [getLatestAudioResponse] returns for the call,
    [data.text] is the text of the last recorded response, and every answer
    for a request without identifier, or whose parameters are rejected, is
    one the player drops at [!response.ok]. *)
Theorem X9_player_reads_the_latest_response
    (st : State) (params : AudioApi.Params) :
  fetched (AudioApi.GET st params) =
  match params with
  | AudioApi.ParamsResolved (Some id) =>
      if String.eqb id "" then Player.NotOk
      else Player.Data (getLatestAudioResponse st id)
                       (text <$> last (getAudioResponses st id))
  | _ => Player.NotOk
  end.
Proof.
  rewrite fetched_GET. destruct params as [|[id|]]; try done.
  unfold truthy. by destruct (String.eqb id "").
Qed.

(** X10.  A tick of the player changes nothing unless the endpoint hands out
    a latest response with a non-empty locator other than the one taken
    last: errors, unknown calls, calls without responses, text-only
    responses and repeated answers leave the audio element, the reference
    and the delayed swaps as they are. *)
Theorem X10_tick_without_new_audio_changes_nothing
    (resolve : string → string) (st : State) (params : AudioApi.Params)
    (p : Player.Player) (now : Z) :
  (∀ id url, params = AudioApi.ParamsResolved (Some id) →
             getLatestAudioResponse st id = Some url →
             url = "" ∨ Player.lastPlayedUrlRef p = Some url) →
  Player.step resolve p (Player.Poll (fetched (AudioApi.GET st params)) now)
    = p.
Proof.
  intros H. rewrite fetched_GET. simpl.
  destruct params as [|[id|]]; try done.
  destruct (truthy id); [|done]. simpl.
  destruct (getLatestAudioResponse st id) as [url|] eqn:E; [|done].
  destruct (H id url eq_refl E) as [->|Hlast]; [done|].
  rewrite Hlast, bool_decide_true by done. by rewrite andb_false_r.
Qed.

Lemma X10_tick_without_new_audio_witness :
  let st := processTranscription Durable
              (startSession (initial env_text_only)
                 "call-1" "agent-x" "Be concise.")
              "call-1" "What's the weather?" "user-1" sunny in
  getLatestAudioResponse st "call-1" = Some "" ∧
  Player.step localhost Player.mounted
    (Player.Poll
       (fetched (AudioApi.GET st (AudioApi.ParamsResolved (Some "call-1"))))
       1700000001500)
    = Player.mounted.
Proof.
  intros st. split; [vm_compute; reflexivity|].
  apply (X10_tick_without_new_audio_changes_nothing localhost st
           (AudioApi.ParamsResolved (Some "call-1")) Player.mounted
           1700000001500).
  intros id url [= <-] Hurl. left.
  assert (getLatestAudioResponse st "call-1" = Some "") as Hst
    by (vm_compute; reflexivity).
  congruence.
Defined.

(** X11.  From the fragment to the loudspeaker, in the copy that writes
    files: when a fragment is accepted and the model, text-to-speech, the
    directory check and the write all succeed, the audio is on disk under
    the recorded name, the endpoint answers with that entry, and a player
    that has just been mounted takes the locator, gives the element the
    cache-busted source and plays it. *)
Theorem X11_spoken_turn_reaches_the_player
    (resolve : string → string) (st : State) (id txt spk : string)
    (b : Collaborators) (l : nat) (s : GeminiVoiceSession)
    (reply : string) (audio : list Byte.byte) (now : Z) :
  get st id = Some (l, s) → isProcessing s = false → spk ≠ agentUserId s →
  id ≠ "" →
  getGeminiClient (env st) = true → getTTSClient (env st) = true →
  generated b = Some reply → synthesized b = Some (Some audio) →
  ensured b = true → written b = true →
  let st' := processTranscription Durable st id txt spk b in
  let name := audio_file_name id (clock b) in
  let answer := AudioApi.GET st' (AudioApi.ParamsResolved (Some id)) in
  let p := Player.step resolve Player.mounted
             (Player.Poll (fetched answer) now) in
  disk st' !! name = Some audio ∧
  answer = latest_entry {| text := text_or_fallback reply;
                           audioUrl := "/audio-responses/" +:+ name;
                           timestamp := new_Date (clock b) |} ∧
  Player.played p
    = [ {| Player.locator := "/audio-responses/" +:+ name;
           Player.srcUrl :=
             "/audio-responses/" +:+ name +:+ "?t=" +:+ pretty now |} ] ∧
  Player.src p
    = Some ("/audio-responses/" +:+ name +:+ "?t=" +:+ pretty now) ∧
  Player.lastPlayedUrlRef p = Some ("/audio-responses/" +:+ name) ∧
  Player.onEnded p = [].
Proof.
  intros Hg Hfree Hspk Hid Hgem Htts Hgen Hsyn Hens Hwri st' name answer p.
  destruct (processTranscription_accepted Durable st id txt spk b l s
              Hg Hfree Hspk) as (_ & _ & _ & Hdisk).
  pose proof (processTranscription_lookup Durable st id txt spk b l s
                Hg Hfree Hspk) as Hget.
  fold st' in Hdisk, Hget.
  assert (last (getAudioResponses st' id)
          = Some {| text := text_or_fallback reply;
                    audioUrl := "/audio-responses/" +:+ name;
                    timestamp := new_Date (clock b) |}) as Hlast.
  { unfold getAudioResponses. rewrite Hget.
    unfold turn_outcome, reply_of, speech_of, recorded. simpl.
    rewrite Hgem, Htts, Hgen, Hsyn, Hens, Hwri. simpl.
    by rewrite last_snoc. }
  assert (truthy id = true) as Htruthy.
  { unfold truthy. by apply negb_true_iff, String.eqb_neq. }
  split; [|split].
  - rewrite Hdisk. unfold written_file, reply_of, speech_of.
    rewrite Hgem, Htts, Hgen, Hsyn, Hens, Hwri. simpl.
    by rewrite lookup_insert_eq.
  - unfold answer, AudioApi.GET. simpl. rewrite Htruthy. simpl.
    by rewrite Hlast.
  - unfold p, answer. rewrite fetched_GET, Htruthy, latest_of_responses, Hlast.
    done.
Qed.

Lemma X11_spoken_turn_witness :
  let st := startSession (initial env_with_tts)
              "call-1" "agent-x" "Be concise." in
  let st' := processTranscription Durable st
               "call-1" "What's the weather?" "user-1" sunny in
  let p := Player.step localhost Player.mounted
             (Player.Poll
                (fetched (AudioApi.GET st'
                            (AudioApi.ParamsResolved (Some "call-1"))))
                1700000001500) in
  disk st' !! "call-1-1700000000000.wav" = Some ten_bytes ∧
  Player.src p
    = Some "/audio-responses/call-1-1700000000000.wav?t=1700000001500".
Proof.
  intros st st' p.
  pose proof (X11_spoken_turn_reaches_the_player localhost st
                "call-1" "What's the weather?" "user-1" sunny 0%nat
                {| call := "call-1"; agentUserId := "agent-x";
                   instructions := "Be concise."; conversationHistory := [];
                   isProcessing := false; audioResponses := [] |}
                "It's sunny." ten_bytes 1700000001500) as H.
  destruct H as (Hdisk & _ & _ & Hsrc & _);
    [vm_compute; reflexivity|reflexivity|discriminate|discriminate
    |reflexivity|reflexivity|reflexivity|reflexivity|reflexivity|reflexivity
    |].
  split; [exact Hdisk|exact Hsrc].
Defined.

Section Sources.

Import Player.

Variable resolve : string → string.

Implicit Types (p : Player) (es : list Event).

Lemma changes_sublist (l : list string) : changes l `sublist_of` l.
Proof.
  induction l as [|x l IH]; [done|].
  destruct l as [|y l]; [done|].
  change (changes (x :: y :: l))
    with (if String.eqb x y then changes (y :: l)
          else x :: changes (y :: l)).
  destruct (String.eqb x y).
  - by apply sublist_cons.
  - by apply sublist_skip.
Qed.

Lemma feed_nonempty es (x : string) : x ∈ feed es → x ≠ "".
Proof.
  unfold feed. rewrite list_elem_of_omap. intros (e & _ & He) ->.
  destruct e as [[| |[url|] txt] now| | | |]; try done. simpl in He.
  destruct (truthy url) eqn:Ht; [|done]. by simplify_eq.
Qed.

(** Every source played or held was made by the interval callback. *)
Lemma run_sources es :
  Forall cache_busted (played (run resolve mounted es)
                         ++ onEnded (run resolve mounted es)).
Proof.
  induction es as [|e es IH] using rev_ind; [constructor|].
  unfold run in *. rewrite foldl_snoc.
  set (p := foldl (step resolve) mounted es) in *.
  destruct e as [f now| | | |]; simpl; try done.
  - destruct f as [| |[url|] txt]; simpl; try done.
    destruct (truthy url && negb (bool_decide (Some url = lastPlayedUrlRef p)));
      [|done].
    simpl. destruct (String.eqb (audio_src resolve _) _); simpl; [done|].
    assert (cache_busted (make_source url now)) by by exists now.
    apply Forall_app in IH as [? ?].
    destruct (isPlayingRef p); simpl; rewrite !Forall_app;
      repeat split; try done; by apply Forall_singleton.
  - destruct (ended_spec p) as (-> & -> & _). by rewrite app_nil_r.
Qed.

End Sources.

(** X12.  Whatever the events (ticks with any answers, 'playing', 'ended',
    'pause', cleanup), the player plays or holds nothing the feed did not
    deliver: every source it played or registered for a delayed swap is
    [<locator>?t=<time>] for a non-empty locator of the feed, there are at
    most as many of them as the feed changed locator, and the reference
    holds the last locator the feed delivered. *)
Theorem X12_player_plays_only_what_the_feed_delivered
    (resolve : string → string) (es : list Player.Event) :
  let p := Player.run resolve Player.mounted es in
  (∀ s, s ∈ Player.played p ++ Player.onEnded p →
        Player.locator s ∈ Player.feed es ∧ Player.locator s ≠ "" ∧
        ∃ now : Z,
          Player.srcUrl s = Player.locator s +:+ "?t=" +:+ pretty now) ∧
  (length (Player.played p) + length (Player.onEnded p)
     ≤ length (Player.changes (Player.feed es)))%nat ∧
  (length (Player.changes (Player.feed es))
     ≤ length (Player.feed es))%nat ∧
  Player.lastPlayedUrlRef p = last (Player.feed es).
Proof.
  intros p. destruct (run_taken resolve es) as [Hsub Hlast].
  fold p in Hsub, Hlast. split; [|split; [|split]]; [| | |done].
  - intros s Hs.
    assert (Player.locator s ∈ Player.feed es) as Hfed.
    { eapply elem_of_sublist; [|apply changes_sublist].
      eapply elem_of_submseteq; [|exact Hsub].
      unfold taken. by apply list_elem_of_fmap_2. }
    split; [done|]. split; [by eapply feed_nonempty|].
    pose proof (run_sources resolve es) as Hall. fold p in Hall.
    rewrite Forall_forall in Hall. destruct (Hall s Hs) as [now Hnow].
    exists now. by rewrite Hnow at 1.
  - apply submseteq_length in Hsub. unfold taken in Hsub.
    by rewrite length_fmap, length_app in Hsub.
  - apply sublist_length, changes_sublist.
Qed.

(** * The configuration test *)

Section ConfigTest.

Import GeminiConfig.

Implicit Types (env : ProcessEnv) (pr : Probes) (r : Results).

(** The key check of the test is the one [getGeminiClient] makes. *)
Lemma or_else_truthy (a b : option string) :
  truthy_opt (or_else a b) = truthy_opt a || truthy_opt b.
Proof. unfold or_else. by destruct (truthy_opt a) eqn:E; rewrite ?E. Qed.

Lemma test_report env pr :
  let r := testGeminiConfiguration env pr in
  geminiApiKey r = getGeminiClient env ∧
  (geminiConnection r = true → geminiApiKey r = true) ∧
  (geminiApiKey r && geminiConnection r = false → errors r ≠ []) ∧
  (length (errors r) ≤ 3)%nat ∧
  (errors r = [] →
   geminiConnection r = true ∧
   (truthy_opt (GOOGLE_CLOUD_KEYFILE env) = true →
    googleCloudKeyfile r = true) ∧
   (tts_tested env = true → textToSpeech r = true)).
Proof.
  run_tests; rewrite ?or_else_truthy; simpl.
  destruct (truthy_opt (GEMINI_API_KEY env)),
    (truthy_opt (GOOGLE_GENAI_API_KEY env)),
    (truthy_opt (GOOGLE_CLOUD_KEYFILE env)),
    (truthy_opt (GOOGLE_CLOUD_PROJECT_ID env)),
    (generateContent pr) as [g|], (keyfileLookup pr) as [[[|]| |]|],
    (synthesizeSpeech pr) as [[|]|]; simpl;
    try destruct (truthy g); simpl; repeat split; try done; lia.
Qed.

Lemma test_tts env pr :
  let r := testGeminiConfiguration env pr in
  (textToSpeech r = true →
   getTTSClient env = true ∧ googleCloudProjectId r = true ∧
   truthy_opt (GOOGLE_CLOUD_KEYFILE env) = true) ∧
  (getTTSClient env = false →
   textToSpeech r = false ∧ googleCloudKeyfile r = false ∧
   googleCloudProjectId r = false) ∧
  (truthy_opt (GOOGLE_CLOUD_KEYFILE env)
     ≠ truthy_opt (GOOGLE_CLOUD_PROJECT_ID env) →
   getTTSClient env = true ∧ textToSpeech r = false ∧
   ∀ answer,
     testGeminiConfiguration env
       {| generateContent := generateContent pr;
          keyfilePath := keyfilePath pr;
          keyfileLookup := keyfileLookup pr;
          synthesizeSpeech := answer |} = r).
Proof.
  run_tests; rewrite ?or_else_truthy; simpl.
  destruct (truthy_opt (GEMINI_API_KEY env)),
    (truthy_opt (GOOGLE_GENAI_API_KEY env)),
    (truthy_opt (GOOGLE_CLOUD_KEYFILE env)),
    (truthy_opt (GOOGLE_CLOUD_PROJECT_ID env)),
    (generateContent pr) as [g|], (keyfileLookup pr) as [[[|]| |]|],
    (synthesizeSpeech pr) as [[|]|]; simpl;
    try destruct (truthy g); simpl; repeat split; done.
Qed.

End ConfigTest.

(** X13.  The report of the configuration test: its key check is the one
    the voice service makes before it calls the model; the connection is
    only reported for a key that was found, so the endpoint's [success] is
    the connection flag; a report that is not a success names at least one
    error; there is at most one error per probe; and a report without
    errors means the model answered, the configured keyfile was found and,
    where text-to-speech was probed, it produced audio. *)
Theorem X13_config_report_explains_failure
    (env : ProcessEnv) (pr : GeminiConfig.Probes) :
  let r := GeminiConfig.testGeminiConfiguration env pr in
  let answer := GeminiConfig.GET env pr in
  GeminiConfig.results answer = r ∧
  GeminiConfig.geminiApiKey r = getGeminiClient env ∧
  GeminiConfig.success answer = GeminiConfig.geminiConnection r ∧
  (GeminiConfig.success answer = false → GeminiConfig.errors r ≠ []) ∧
  (length (GeminiConfig.errors r) ≤ 3)%nat ∧
  (GeminiConfig.errors r = [] →
   GeminiConfig.success answer = true ∧
   (truthy_opt (GOOGLE_CLOUD_KEYFILE env) = true →
    GeminiConfig.googleCloudKeyfile r = true) ∧
   (GeminiConfig.tts_tested env = true →
    GeminiConfig.textToSpeech r = true)).
Proof.
  intros r answer.
  destruct (test_report env pr) as (Hkey & Hconn & Hfail & Hlen & Hclean).
  fold r in Hkey, Hconn, Hfail, Hlen, Hclean.
  assert (GeminiConfig.success answer = GeminiConfig.geminiConnection r)
    as Hsuccess.
  { change (GeminiConfig.success answer)
      with (GeminiConfig.geminiApiKey r && GeminiConfig.geminiConnection r).
    destruct (GeminiConfig.geminiConnection r); [|by rewrite andb_false_r].
    by rewrite Hconn. }
  split; [done|]. split; [done|]. split; [done|].
  split; [|split; [done|]].
  - intros Hno. apply Hfail.
    change (GeminiConfig.success answer = false). done.
  - intros Hnone. destruct (Hclean Hnone) as (? & ? & ?).
    by rewrite Hsuccess.
Qed.

Lemma X13_config_report_witness :
  let pr := {| GeminiConfig.generateContent :=
                 GeminiConfig.Raised "API key not valid";
               GeminiConfig.keyfilePath := "/app/key.json";
               GeminiConfig.keyfileLookup :=
                 GeminiConfig.Returned GeminiConfig.NotFound;
               GeminiConfig.synthesizeSpeech := GeminiConfig.Returned true |} in
  GeminiConfig.errors (GeminiConfig.testGeminiConfiguration env_text_only pr)
    ≠ [].
Proof.
  intros pr.
  apply (proj1 (proj2 (proj2 (proj2
           (X13_config_report_explains_failure env_text_only pr))))).
  vm_compute. reflexivity.
Defined.

(** X14.  The test and the service do not draw the line at the same place.
    The test probes text-to-speech only when the keyfile variable and the
    project variable are both set; the service builds a text-to-speech
    client as soon as one of them is.  So a passed speech probe implies the
    service has a client, an environment with neither variable has all
    three cloud flags off, and with exactly one of the two set the service
    has a client that the test never consulted: the report does not depend
    on what text-to-speech would answer. *)
Theorem X14_speech_probe_and_service_client
    (env : ProcessEnv) (pr : GeminiConfig.Probes) :
  let r := GeminiConfig.testGeminiConfiguration env pr in
  (GeminiConfig.textToSpeech r = true →
   getTTSClient env = true ∧ GeminiConfig.googleCloudProjectId r = true ∧
   truthy_opt (GOOGLE_CLOUD_KEYFILE env) = true) ∧
  (getTTSClient env = false →
   GeminiConfig.textToSpeech r = false ∧
   GeminiConfig.googleCloudKeyfile r = false ∧
   GeminiConfig.googleCloudProjectId r = false) ∧
  (truthy_opt (GOOGLE_CLOUD_KEYFILE env)
     ≠ truthy_opt (GOOGLE_CLOUD_PROJECT_ID env) →
   getTTSClient env = true ∧ GeminiConfig.textToSpeech r = false ∧
   ∀ answer,
     GeminiConfig.testGeminiConfiguration env
       {| GeminiConfig.generateContent := GeminiConfig.generateContent pr;
          GeminiConfig.keyfilePath := GeminiConfig.keyfilePath pr;
          GeminiConfig.keyfileLookup := GeminiConfig.keyfileLookup pr;
          GeminiConfig.synthesizeSpeech := answer |} = r).
Proof. exact (test_tts env pr). Qed.

Lemma X14_speech_probe_witness :
  let env := {| GOOGLE_CLOUD_KEYFILE := Some "./key.json";
                GOOGLE_CLOUD_PROJECT_ID := None;
                GEMINI_API_KEY := Some "k"; GOOGLE_GENAI_API_KEY := None |} in
  let pr := {| GeminiConfig.generateContent := GeminiConfig.Returned "Hello";
               GeminiConfig.keyfilePath := "/app/key.json";
               GeminiConfig.keyfileLookup :=
                 GeminiConfig.Returned (GeminiConfig.AtPath true);
               GeminiConfig.synthesizeSpeech :=
                 GeminiConfig.Raised "permission denied" |} in
  getTTSClient env = true ∧
  GeminiConfig.errors (GeminiConfig.testGeminiConfiguration env pr) = [].
Proof.
  intros env pr.
  destruct (proj2 (proj2 (X14_speech_probe_and_service_client env pr)))
    as (Hclient & _ & _); [vm_compute; discriminate|].
  split; [exact Hclient|vm_compute; reflexivity].
Defined.

(** * The add-speakers step *)

Section Speakers.

Import MeetingsProcessing.

Context {Item : Type} (speaker_id : Item → string).

Implicit Types (users agents speakers : list Speaker) (item : Item).

Lemma find_select (p : Speaker → bool) (ids : list string) users agents :
  (∀ row, p row = true → id row ∈ ids) →
  List.find p (select_in users ids ++ select_in agents ids)
    = List.find p (users ++ agents).
Proof.
  intros Hp. unfold select_in.
  assert (∀ l, List.find p (filter (λ row, id row ∈ ids) l) = List.find p l)
    as Hone.
  { induction l as [|a l IH]; [done|]. rewrite filter_cons. simpl.
    destruct (p a) eqn:Ha.
    - rewrite decide_True by auto. simpl. by rewrite Ha.
    - destruct (decide (id a ∈ ids)); simpl; by rewrite ?Ha. }
  induction users as [|a l IH]; simpl; [apply Hone|].
  rewrite filter_cons. destruct (p a) eqn:Ha.
  - rewrite decide_True by auto. simpl. by rewrite Ha.
  - destruct (decide (id a ∈ ids)); simpl; by rewrite ?Ha.
Qed.

(** Restricting the two queries to the speakers of the transcript loses no
    speaker of an item of the transcript. *)
Lemma with_speaker_select fallback users agents (transcript : list Item) item :
  item ∈ transcript →
  with_speaker Item speaker_id fallback
    (select_in users (speakerIds Item speaker_id transcript)
       ++ select_in agents (speakerIds Item speaker_id transcript)) item
  = with_speaker Item speaker_id fallback (users ++ agents) item.
Proof.
  intros Hin. unfold with_speaker, find_speaker. rewrite find_select; [done|].
  intros row ->%String.eqb_eq. unfold speakerIds.
  apply elem_of_remove_dups. by apply list_elem_of_fmap_2.
Qed.

Lemma add_speakers_lookup fallback users agents (transcript : list Item) :
  add_speakers Item speaker_id fallback users agents transcript
  = with_speaker Item speaker_id fallback (users ++ agents) <$> transcript.
Proof.
  unfold add_speakers. apply Forall_fmap_ext_1, Forall_forall.
  intros item Hin. by apply with_speaker_select.
Qed.

Lemma display_name_nonempty users agents item :
  display_name speaker_id users agents item ≠ "".
Proof.
  unfold display_name.
  destruct (find_speaker _ _ _ _) as [row|]; [|done].
  destruct (truthy (name row)) eqn:E; [|done].
  by apply negb_true_iff, String.eqb_neq in E.
Qed.

End Speakers.

(** X15.  The add-speakers step of the summary job, in the version with the
    ['Unknown'] fallback: the transcript comes back item by item, in order;
    each item is named after the first row with its [speaker_id], user rows
    before agent rows, looked up in the whole tables (restricting the
    queries to the speakers of the transcript loses nothing); and no item
    is left with an empty name. *)
Theorem X15_every_item_gets_a_speaker_name
    {Item : Type} (speaker_id : Item → string)
    (users agents : list MeetingsProcessing.Speaker)
    (transcript : list Item) :
  let out := MeetingsProcessing.add_speakers Item speaker_id true
               users agents transcript in
  out.*1 = transcript ∧
  out.*2 = display_name speaker_id users agents <$> transcript ∧
  Forall (λ x, x.2 ≠ "") out.
Proof.
  intros out. unfold out. rewrite add_speakers_lookup.
  assert (MeetingsProcessing.with_speaker Item speaker_id true
            (users ++ agents) <$> transcript
          = (λ item, (item, display_name speaker_id users agents item))
              <$> transcript) as ->.
  { apply Forall_fmap_ext_1, Forall_forall. intros item _.
    unfold MeetingsProcessing.with_speaker, display_name.
    by destruct (MeetingsProcessing.find_speaker _ _ _ _). }
  rewrite <- !list_fmap_compose. split; [|split].
  - by rewrite <- (list_fmap_id transcript) at 2.
  - done.
  - apply Forall_fmap, Forall_forall. intros item _. simpl.
    apply display_name_nonempty.
Qed.

(** X16.  The two versions of the step (with and without the ['Unknown']
    fallback for a speaker whose name is empty) name every item alike when
    no row of the two tables has an empty name. *)
Theorem X16_versions_of_add_speakers_agree
    {Item : Type} (speaker_id : Item → string)
    (users agents : list MeetingsProcessing.Speaker)
    (transcript : list Item) :
  (∀ row, row ∈ users ++ agents → MeetingsProcessing.name row ≠ "") →
  MeetingsProcessing.add_speakers Item speaker_id true users agents transcript
  = MeetingsProcessing.add_speakers Item speaker_id false
      users agents transcript.
Proof.
  intros Hnames. rewrite !add_speakers_lookup.
  apply Forall_fmap_ext_1, Forall_forall. intros item _.
  unfold MeetingsProcessing.with_speaker, MeetingsProcessing.find_speaker.
  destruct (List.find _ _) as [row|] eqn:E; [|done].
  apply List.find_some in E as [Hin%list_elem_of_In _].
  assert (truthy (MeetingsProcessing.name row) = true) as ->; [|done].
  unfold truthy. apply negb_true_iff, String.eqb_neq. by apply Hnames.
Qed.

Lemma X16_versions_of_add_speakers_witness :
  let users := [ {| MeetingsProcessing.id := "u1";
                    MeetingsProcessing.name := "Ada" |} ] in
  let agents := [ {| MeetingsProcessing.id := "a1";
                     MeetingsProcessing.name := "Helper" |} ] in
  MeetingsProcessing.add_speakers string (λ x, x) true users agents
    ["u1"; "a1"; "u2"; "u1"]
  = MeetingsProcessing.add_speakers string (λ x, x) false users agents
      ["u1"; "a1"; "u2"; "u1"].
Proof.
  intros users agents.
  apply (X16_versions_of_add_speakers_agree (λ x : string, x) users agents).
  intros row Hrow.
  apply elem_of_cons in Hrow as [->|Hrow]; [discriminate|].
  apply elem_of_cons in Hrow as [->|Hrow]; [discriminate|].
  by apply elem_of_nil in Hrow.
Defined.

Lemma X12_player_witness :
  let es := [Player.Poll (Player.Data (Some "/audio-responses/a.wav") None) 1;
             Player.Playing;
             Player.Poll (Player.Data (Some "/audio-responses/b.wav") None) 2]
  in
  let s := Player.make_source "/audio-responses/b.wav" 2 in
  Player.locator s ∈ Player.feed es ∧ Player.locator s ≠ "" ∧
  ∃ now : Z, Player.srcUrl s = Player.locator s +:+ "?t=" +:+ pretty now.
Proof.
  intros es s.
  apply (proj1 (X12_player_plays_only_what_the_feed_delivered localhost es) s).
  vm_compute. right. left.
Defined.

(** X17.  A call whose session has been ended or replaced while it was
    suspended is never served: when the map no longer binds the call's
    identifier to the object the call holds, no settlement of its promises
    changes what [sessions.get] yields for any identifier, nor any answer of
    the retrieval endpoint; whatever it records stays on the orphaned
    object. *)
Theorem X17_orphaned_call_is_never_served
    (v : Variant) (e : ProcessEnv) (es : list Event)
    (i : nat) (t : Task) (r : Settled) (clk : Clock) :
  let c := exec v (start e) es in
  inflight c !! i = Some t →
  sessions (state c) !! callId t ≠ Some (session t) →
  let c' := step v c (Settle i r clk) in
  (∀ id, get (state c') id = get (state c) id) ∧
  (∀ params, AudioApi.GET (state c') params = AudioApi.GET (state c) params).
Proof.
  intros c Hi Horphan c'.
  assert (∀ id, get (state c') id = get (state c) id) as Hget.
  { intros id. unfold c'. simpl. rewrite Hi.
    destruct (resume v (state c) t r clk) as [[st ot]|] eqn:Hr; [|done].
    destruct (registered_exec v e es) as (_ & Htasks & Hmap).
    fold c in Htasks, Hmap.
    assert (get st id = get (state c) id) as Hst.
    { unfold get. rewrite (proj1 (resume_sessions _ _ _ _ _ _ _ Hr)).
      destruct (sessions (state c) !! id) as [l|] eqn:Hl; [|done].
      rewrite (resume_other _ _ _ _ _ _ _ _ Hr); [done|]. intros ->.
      destruct (Htasks t) as (s1 & Hs1 & Hc1);
        [by eapply list_elem_of_lookup_2|].
      destruct (Hmap _ _ Hl) as (s2 & Hs2 & Hc2).
      apply Horphan. congruence. }
    by destruct ot. }
  split; [done|].
  intros [|[id|]]; try done. unfold AudioApi.GET, getAudioResponses.
  by rewrite Hget.
Qed.

Lemma X17_orphaned_call_witness :
  let es := [StartSession "call-1" "agent-x" "Be concise.";
             ProcessTranscription "call-1" "What's the weather?" "user-1";
             Settle 0 (GeneratedText "It's sunny.") sample_clock;
             StartSession "call-1" "agent-x" "Be concise."] in
  let c := exec Ephemeral (start env_text_only) es in
  let c' := step Ephemeral c (Settle 0 Done sample_clock) in
  (audioResponses <$> objects (state c') !! 0%nat
   = Some [ {| text := "It's sunny.";
               audioUrl := "/audio-responses/call-1-1700000000000.wav";
               timestamp := 1700000000001 |} ]) ∧
  AudioApi.GET (state c') (AudioApi.ParamsResolved (Some "call-1")) = no_data.
Proof.
  intros es c c'. split; [vm_compute; reflexivity|].
  pose proof (X17_orphaned_call_is_never_served Ephemeral env_text_only es
                0%nat
                {| session := 0; callId := "call-1";
                   transcriptionText := "What's the weather?";
                   stage := AwaitSpeech "It's sunny." false |}
                Done sample_clock) as H.
  destruct H as [_ H]; [vm_compute; reflexivity|vm_compute; discriminate|].
  fold c c' in H. rewrite H. vm_compute. reflexivity.
Defined.
